(** * Bit-level URL encoding of the roster viewer (src/src/encoding.ts)

    A shallow embedding of [BitVector], [encodeChara], [decodeChara],
    [encodeCharas] and [decodeCharas], and the properties of the wire format.

    JavaScript numbers are modelled as [Z]; the bitwise operators coerce their
    operands to 32-bit signed integers, which is written out in [toInt32].
    The bit array is a [list Z] (the source stores the numbers 0 and 1), the
    read cursor a [nat].  Strings are sequences of 8-bit characters: every
    character outside the 64-symbol alphabet is skipped by [fromBase64], so a
    code point above 127 behaves the same whether it is one element or several. *)

From Stdlib Require Import String Ascii ZArith List Bool Lia ZifyNat.
Import ListNotations.
Local Open Scope Z_scope.

(** ** JavaScript's 32-bit operators *)

Definition toInt32 (z : Z) : Z := (z + 2 ^ 31) mod 2 ^ 32 - 2 ^ 31.

(** [a >> k], [a << k], [a & b], [a | b]; the shift count is taken modulo 32. *)
Definition js_shr (a k : Z) : Z := Z.shiftr (toInt32 a) (k mod 32).
Definition js_shl (a k : Z) : Z := toInt32 (Z.shiftl (toInt32 a) (k mod 32)).
Definition js_and (a b : Z) : Z := Z.land (toInt32 a) (toInt32 b).
Definition js_or (a b : Z) : Z := Z.lor (toInt32 a) (toInt32 b).

(** ** BitVector *)

Record BitVector : Type := mkBitVector { bits : list Z; readPos : nat }.

Definition new_BitVector : BitVector := mkBitVector [] 0.

(** [for (let i = bitLength - 1; i >= 0; i--) this.bits.push((value >> i) & 1)];
    the first argument counts the iterations left, so the loop index is [k]. *)
Fixpoint write_loop (value : Z) (i : nat) (bs : list Z) : list Z :=
  match i with
  | O => bs
  | S k => write_loop value k (bs ++ [js_and (js_shr value (Z.of_nat k)) 1])
  end.

Definition write (bv : BitVector) (value : Z) (bitLength : nat) : BitVector :=
  mkBitVector (write_loop value bitLength (bits bv)) (readPos bv).

(** Code that reads the vector threads it through a small state monad. *)
Definition M (A : Type) : Type := BitVector -> A * BitVector.

Definition ret {A : Type} (a : A) : M A := fun bv => (a, bv).

Definition bind {A B : Type} (m : M A) (k : A -> M B) : M B :=
  fun bv => let (a, bv') := m bv in k a bv'.

Notation "x <- m ;; k" := (bind m (fun x => k))
  (at level 61, m at next level, right associativity).

(** [value = (value << 1) | (this.bits[this.readPos++] ?? 0)], [n] times. *)
Fixpoint read_loop (n : nat) (value : Z) (bv : BitVector) : Z * BitVector :=
  match n with
  | O => (value, bv)
  | S k =>
      read_loop k (js_or (js_shl value 1) (nth (readPos bv) (bits bv) 0))
        (mkBitVector (bits bv) (S (readPos bv)))
  end.

Definition read (bitLength : nat) : M Z := read_loop bitLength 0.

Definition readSigned (bitLength : nat) : M Z :=
  value <- read bitLength ;;
  let signBit := js_shl 1 (Z.of_nat bitLength - 1) in
  if js_and value signBit =? 0 then ret value
  else ret (value - js_shl 1 (Z.of_nat bitLength)).

Definition remaining (bv : BitVector) : Z :=
  Z.of_nat (length (bits bv)) - Z.of_nat (readPos bv).

(** [while (this.bits.length % 6 !== 0) this.bits.push(0)].  The loop body runs
    at most five times; [padToBase64_exits] shows that six units of fuel always
    reach the exit test. *)
Fixpoint padToBase64_loop (fuel : nat) (bs : list Z) : list Z :=
  match fuel with
  | O => bs
  | S f =>
      if (Nat.modulo (length bs) 6 =? 0)%nat then bs
      else padToBase64_loop f (bs ++ [0])
  end.

Definition padToBase64 (bv : BitVector) : BitVector :=
  mkBitVector (padToBase64_loop 6 (bits bv)) (readPos bv).

Definition BASE64_CHARS : string :=
  "ABCDEFGHIJKLMNOPQRSTUVWXYZabcdefghijklmnopqrstuvwxyz0123456789-_"%string.

(** [s[value]] appended to a string: a one-character string, or the text of
    [undefined] when the index is out of range. *)
Definition char_at (s : string) (value : Z) : string :=
  match (if value <? 0 then None else String.get (Z.to_nat value) s) with
  | Some c => String c EmptyString
  | None => "undefined"%string
  end.

(** [s.indexOf(char)] for a one-character [char]: the first position, or -1. *)
Fixpoint indexOf_from (s : string) (char : ascii) (i : Z) : Z :=
  match s with
  | EmptyString => -1
  | String a s' => if Ascii.eqb a char then i else indexOf_from s' char (i + 1)
  end.

Definition indexOf (s : string) (char : ascii) : Z := indexOf_from s char 0.

(** The inner loop of [toBase64]: six bits from index [k], missing ones as 0. *)
Fixpoint sextet_loop (j : nat) (value : Z) (bs : list Z) (k : nat) : Z :=
  match j with
  | O => value
  | S j' => sextet_loop j' (js_or (js_shl value 1) (nth k bs 0)) bs (S k)
  end.

(** [for (let i = 0; i < this.bits.length; i += 6)]: the index grows at every
    turn, so [length bs] units of fuel are never used up. *)
Fixpoint toBase64_loop (fuel : nat) (i : nat) (bs : list Z) (result : string) : string :=
  match fuel with
  | O => result
  | S f =>
      if (i <? length bs)%nat then
        let value := sextet_loop 6 0 bs i in
        toBase64_loop f (i + 6) bs (result ++ char_at BASE64_CHARS value)%string
      else result
  end.

(** [toBase64] pads the vector in place and returns the text; no caller uses
    the vector afterwards, so only the text is returned here. *)
Definition toBase64 (bv : BitVector) : string :=
  let bs := bits (padToBase64 bv) in
  toBase64_loop (length bs) 0 bs EmptyString.

(** [fromBase64]: characters outside the alphabet are skipped; the others push
    their six bits with the same loop as [write]. *)
Fixpoint fromBase64_loop (str : string) (bs : list Z) : list Z :=
  match str with
  | EmptyString => bs
  | String char rest =>
      let value := indexOf BASE64_CHARS char in
      if value =? -1 then fromBase64_loop rest bs
      else fromBase64_loop rest (write_loop value 6 bs)
  end.

Definition fromBase64 (str : string) : BitVector :=
  mkBitVector (fromBase64_loop str []) 0.

(** ** Records *)

(** Modelled from the spec: the declaration of SkillData in [./types] is not
    part of the sources; the fields are those [encodeChara] reads and
    [decodeChara] builds. *)
Record SkillData : Type := mkSkillData { skill_id : Z; level : Z }.

(** Modelled from the spec: the declaration of SuccessionCharaData in
    [./types] is not part of the sources; these are the fields the codec reads
    and builds ([card_id], [talent_level] and [factor_id_array] carry the
    prefix the decoder's local variables have). *)
Record SuccessionCharaData : Type := mkSuccessionCharaData {
  parent_card_id : Z;
  parent_talent_level : Z;
  parent_factor_id_array : list Z;
  position_id : Z
}.

Section Codec.

Context {SupportCard : Type}.

(** What [new Date()] and [Math.random()] yield when the record of the [i]-th
    declared entry is built, already formatted as [decodeChara] stores them. *)
Variable clock : nat -> string.
Variable random_seed : nat -> Z.

(** Modelled from the spec: the declaration of CharaData in [./types] is not
    part of the sources; the fields are those of the object [decodeChara]
    returns.  The element type of the support-card list is the parameter
    [SupportCard]: the code only ever builds the empty list. *)
Record CharaData : Type := mkCharaData {
  card_id : Z;
  talent_level : Z;
  create_time : string;
  rarity : Z;
  chara_seed : Z;
  speed : Z;
  stamina : Z;
  power : Z;
  guts : Z;
  wiz : Z;
  proper_distance_short : Z;
  proper_distance_mile : Z;
  proper_distance_middle : Z;
  proper_distance_long : Z;
  proper_ground_turf : Z;
  proper_ground_dirt : Z;
  proper_running_style_nige : Z;
  proper_running_style_senko : Z;
  proper_running_style_sashi : Z;
  proper_running_style_oikomi : Z;
  factor_id_array : list Z;
  skill_array : list SkillData;
  succession_chara_array : list SuccessionCharaData;
  support_card_list : list SupportCard
}.

(** ** Record codec *)

Definition ENCODING_VERSION : Z := 2.

Definition encodeChara (bv : BitVector) (chara : CharaData) : BitVector :=
  let bv := write bv (card_id chara) 20 in
  let bv := write bv (talent_level chara - 1) 3 in
  let bv := write bv (Z.min (speed chara) 2047) 11 in
  let bv := write bv (Z.min (stamina chara) 2047) 11 in
  let bv := write bv (Z.min (power chara) 2047) 11 in
  let bv := write bv (Z.min (guts chara) 2047) 11 in
  let bv := write bv (Z.min (wiz chara) 2047) 11 in
  let bv := write bv (proper_distance_short chara - 1) 3 in
  let bv := write bv (proper_distance_mile chara - 1) 3 in
  let bv := write bv (proper_distance_middle chara - 1) 3 in
  let bv := write bv (proper_distance_long chara - 1) 3 in
  let bv := write bv (proper_ground_turf chara - 1) 3 in
  let bv := write bv (proper_ground_dirt chara - 1) 3 in
  let bv := write bv (proper_running_style_nige chara - 1) 3 in
  let bv := write bv (proper_running_style_senko chara - 1) 3 in
  let bv := write bv (proper_running_style_sashi chara - 1) 3 in
  let bv := write bv (proper_running_style_oikomi chara - 1) 3 in
  let factors := firstn 15 (factor_id_array chara) in
  let bv := write bv (Z.of_nat (length factors)) 4 in
  let bv := fold_left (fun bv factorId => write bv factorId 24) factors bv in
  let skills := firstn 63 (skill_array chara) in
  let bv := write bv (Z.of_nat (length skills)) 6 in
  let bv :=
    fold_left
      (fun bv skill =>
         let bv := write bv (skill_id skill) 16 in
         write bv (if level skill >? 1 then 1 else 0) 1)
      skills bv in
  let parents := firstn 3 (succession_chara_array chara) in
  let bv := write bv (Z.of_nat (length parents)) 2 in
  fold_left
    (fun bv parent =>
       let bv := write bv (parent_card_id parent) 20 in
       let bv := write bv (parent_talent_level parent - 1) 3 in
       let parentFactors := firstn 15 (parent_factor_id_array parent) in
       let bv := write bv (Z.of_nat (length parentFactors)) 4 in
       fold_left (fun bv factorId => write bv factorId 24) parentFactors bv)
    parents bv.

(** [for (let i = 0; i < count; i++) array.push(bv.read(24))], with the
    iterations left as first argument. *)
Fixpoint read_factor_ids (count : nat) (acc : list Z) : M (list Z) :=
  match count with
  | O => ret acc
  | S k => factor_id <- read 24 ;; read_factor_ids k (acc ++ [factor_id])
  end.

Fixpoint read_skills (count : nat) (acc : list SkillData) : M (list SkillData) :=
  match count with
  | O => ret acc
  | S k =>
      skill_id <- read 16 ;;
      levelFlag <- read 1 ;;
      read_skills k (acc ++ [mkSkillData skill_id (if levelFlag =? 0 then 1 else 2)])
  end.

(** The parent loop; [i] is the loop index. *)
Fixpoint read_parents (count : nat) (i : Z) (acc : list SuccessionCharaData)
  : M (list SuccessionCharaData) :=
  match count with
  | O => ret acc
  | S k =>
      parent_card_id <- read 20 ;;
      parent_talent_level0 <- read 3 ;;
      parentFactorCount <- read 4 ;;
      parent_factor_id_array <- read_factor_ids (Z.to_nat parentFactorCount) [] ;;
      read_parents k (i + 1)
        (acc ++ [mkSuccessionCharaData parent_card_id (parent_talent_level0 + 1)
                   parent_factor_id_array (i + 1)])
  end.

(** [decodeChara] past its guard: the fields in the order they were written.
    The two arguments are the time stamp and the random seed the call
    observes. *)
Definition decodeChara_fields (now : string) (seed : Z) : M (option CharaData) :=
  card_id <- read 20 ;;
  talent_level0 <- read 3 ;;
  speed <- read 11 ;;
  stamina <- read 11 ;;
  power <- read 11 ;;
  guts <- read 11 ;;
  wiz <- read 11 ;;
  proper_distance_short0 <- read 3 ;;
  proper_distance_mile0 <- read 3 ;;
  proper_distance_middle0 <- read 3 ;;
  proper_distance_long0 <- read 3 ;;
  proper_ground_turf0 <- read 3 ;;
  proper_ground_dirt0 <- read 3 ;;
  proper_running_style_nige0 <- read 3 ;;
  proper_running_style_senko0 <- read 3 ;;
  proper_running_style_sashi0 <- read 3 ;;
  proper_running_style_oikomi0 <- read 3 ;;
  factorCount <- read 4 ;;
  factor_id_array <- read_factor_ids (Z.to_nat factorCount) [] ;;
  skillCount <- read 6 ;;
  skill_array <- read_skills (Z.to_nat skillCount) [] ;;
  parentCount <- read 2 ;;
  succession_chara_array <- read_parents (Z.to_nat parentCount) 0 [] ;;
  ret (Some
         {| card_id := card_id;
            talent_level := talent_level0 + 1;
            create_time := now;
            rarity := 3;
            chara_seed := seed;
            speed := speed;
            stamina := stamina;
            power := power;
            guts := guts;
            wiz := wiz;
            proper_distance_short := proper_distance_short0 + 1;
            proper_distance_mile := proper_distance_mile0 + 1;
            proper_distance_middle := proper_distance_middle0 + 1;
            proper_distance_long := proper_distance_long0 + 1;
            proper_ground_turf := proper_ground_turf0 + 1;
            proper_ground_dirt := proper_ground_dirt0 + 1;
            proper_running_style_nige := proper_running_style_nige0 + 1;
            proper_running_style_senko := proper_running_style_senko0 + 1;
            proper_running_style_sashi := proper_running_style_sashi0 + 1;
            proper_running_style_oikomi := proper_running_style_oikomi0 + 1;
            factor_id_array := factor_id_array;
            skill_array := skill_array;
            succession_chara_array := succession_chara_array;
            support_card_list := [] |}).

(** [decodeChara]: [if (bv.remaining() < 108) return null], then the fields. *)
Definition decodeChara (now : string) (seed : Z) : M (option CharaData) :=
  fun bv =>
    if remaining bv <? 108 then (None, bv) else decodeChara_fields now seed bv.

(** ** Collection codec *)

Definition encodeCharas (charas : list CharaData) : string :=
  let bv := new_BitVector in
  let bv := write bv ENCODING_VERSION 8 in
  let bv := write bv (Z.min (Z.of_nat (length charas)) 255) 8 in
  let bv := fold_left encodeChara (firstn 255 charas) bv in
  toBase64 bv.

(** The loop of [decodeCharas]: [n] iterations left, [i] the loop index.  A
    failed entry appends nothing and the loop goes on to the next index. *)
Fixpoint decodeCharas_loop (n : nat) (i : nat) (charas : list CharaData)
  : M (list CharaData) :=
  match n with
  | O => ret charas
  | S k =>
      chara <- decodeChara (clock i) (random_seed i) ;;
      match chara with
      | Some c => decodeCharas_loop k (S i) (charas ++ [c])
      | None => decodeCharas_loop k (S i) charas
      end
  end.

(** The body of the [try] block.  Nothing in it can raise: an array read out
    of range yields [undefined], which [?? 0] replaces, and the version test
    only logs a warning; so the [catch] branch is never taken. *)
Definition decodeCharas (encoded : string) : list CharaData :=
  let bv := fromBase64 encoded in
  fst ((version <- read 8 ;;
        count <- read 8 ;;
        decodeCharas_loop (Z.to_nat count) 0 []) bv).

End Codec.

Arguments CharaData : clear implicits.

(** ** The wire image of a value

    [write_bits value n] lists the [n] low bits of [value], most significant
    first: what [write] appends.  [bits_value] is the number a run of bits
    spells when read back. *)

Fixpoint write_bits (value : Z) (n : nat) : list Z :=
  match n with
  | O => []
  | S k => Z.b2z (Z.testbit value (Z.of_nat k)) :: write_bits value k
  end.

Definition bits_value (acc : Z) (l : list Z) : Z :=
  fold_left (fun v b => 2 * v + b) l acc.

Definition is_bit (b : Z) : Prop := b = 0 \/ b = 1.

(** The vector with its cursor moved [n] bits on. *)
Definition advance (n : nat) (bv : BitVector) : BitVector :=
  mkBitVector (bits bv) (readPos bv + n).

(** [Reads m l r]: wherever the unread part of the vector starts with [l],
    the reader [m] returns [r] and moves the cursor just past [l]. *)
Definition Reads {A : Type} (m : M A) (l : list Z) (r : A) : Prop :=
  forall bv post,
    skipn (readPos bv) (bits bv) = l ++ post ->
    m bv = (r, advance (length l) bv).

(** [Returns m Q]: whatever the vector, [m] returns a value that satisfies [Q]. *)
Definition Returns {A : Type} (m : M A) (Q : A -> Prop) : Prop :=
  forall bv, Q (fst (m bv)).

(** [Keeps m P]: on a vector of bits, [m] leaves the bits as they are and
    returns a value that satisfies [P]. *)
Definition Keeps {A : Type} (m : M A) (P : A -> Prop) : Prop :=
  forall bv,
    Forall is_bit (bits bv) ->
    bits (snd (m bv)) = bits bv /\ P (fst (m bv)).

Section WireImage.

Context {SupportCard : Type}.
Variable clock : nat -> string.
Variable random_seed : nat -> Z.

#[local] Abbreviation Chara := (CharaData SupportCard).

Definition stats (c : Chara) : list Z :=
  [speed c; stamina c; power c; guts c; wiz c].

Definition aptitudes (c : Chara) : list Z :=
  [proper_distance_short c; proper_distance_mile c; proper_distance_middle c;
   proper_distance_long c; proper_ground_turf c; proper_ground_dirt c;
   proper_running_style_nige c; proper_running_style_senko c;
   proper_running_style_sashi c; proper_running_style_oikomi c].

(** *** The bits one record occupies *)

Definition factor_list_bits (ids : list Z) : list Z :=
  write_bits (Z.of_nat (length (firstn 15 ids))) 4
  ++ flat_map (fun id => write_bits id 24) (firstn 15 ids).

Definition skill_bits (s : SkillData) : list Z :=
  write_bits (skill_id s) 16 ++ write_bits (if level s >? 1 then 1 else 0) 1.

Definition parent_bits (p : SuccessionCharaData) : list Z :=
  write_bits (parent_card_id p) 20
  ++ write_bits (parent_talent_level p - 1) 3
  ++ factor_list_bits (parent_factor_id_array p).

Definition chara_bits (c : Chara) : list Z :=
  write_bits (card_id c) 20
  ++ write_bits (talent_level c - 1) 3
  ++ flat_map (fun s => write_bits (Z.min s 2047) 11) (stats c)
  ++ flat_map (fun a => write_bits (a - 1) 3) (aptitudes c)
  ++ factor_list_bits (factor_id_array c)
  ++ (write_bits (Z.of_nat (length (firstn 63 (skill_array c)))) 6
      ++ flat_map skill_bits (firstn 63 (skill_array c)))
  ++ (write_bits (Z.of_nat (length (firstn 3 (succession_chara_array c)))) 2
      ++ flat_map parent_bits (firstn 3 (succession_chara_array c))).

(** *** The record a decoder rebuilds from those bits *)

Definition low (n : nat) (v : Z) : Z := v mod 2 ^ Z.of_nat n.

Definition factor_image (ids : list Z) : list Z := map (low 24) (firstn 15 ids).

Definition skill_image (s : SkillData) : SkillData :=
  mkSkillData (low 16 (skill_id s)) (if level s >? 1 then 2 else 1).

Fixpoint parents_image (i : Z) (ps : list SuccessionCharaData)
  : list SuccessionCharaData :=
  match ps with
  | [] => []
  | p :: rest =>
      mkSuccessionCharaData (low 20 (parent_card_id p))
        (low 3 (parent_talent_level p - 1) + 1)
        (factor_image (parent_factor_id_array p)) (i + 1)
      :: parents_image (i + 1) rest
  end.

Definition wire_image (now : string) (seed : Z) (c : Chara) : Chara :=
  {| card_id := low 20 (card_id c);
     talent_level := low 3 (talent_level c - 1) + 1;
     create_time := now;
     rarity := 3;
     chara_seed := seed;
     speed := low 11 (Z.min (speed c) 2047);
     stamina := low 11 (Z.min (stamina c) 2047);
     power := low 11 (Z.min (power c) 2047);
     guts := low 11 (Z.min (guts c) 2047);
     wiz := low 11 (Z.min (wiz c) 2047);
     proper_distance_short := low 3 (proper_distance_short c - 1) + 1;
     proper_distance_mile := low 3 (proper_distance_mile c - 1) + 1;
     proper_distance_middle := low 3 (proper_distance_middle c - 1) + 1;
     proper_distance_long := low 3 (proper_distance_long c - 1) + 1;
     proper_ground_turf := low 3 (proper_ground_turf c - 1) + 1;
     proper_ground_dirt := low 3 (proper_ground_dirt c - 1) + 1;
     proper_running_style_nige := low 3 (proper_running_style_nige c - 1) + 1;
     proper_running_style_senko := low 3 (proper_running_style_senko c - 1) + 1;
     proper_running_style_sashi := low 3 (proper_running_style_sashi c - 1) + 1;
     proper_running_style_oikomi := low 3 (proper_running_style_oikomi c - 1) + 1;
     factor_id_array := factor_image (factor_id_array c);
     skill_array := map skill_image (firstn 63 (skill_array c));
     succession_chara_array := parents_image 0 (firstn 3 (succession_chara_array c));
     support_card_list := [] |}.

(** The images of the entries from loop index [i] on. *)
Fixpoint wire_images (i : nat) (cs : list Chara) : list Chara :=
  match cs with
  | [] => []
  | c :: rest => wire_image (clock i) (random_seed i) c :: wire_images (S i) rest
  end.

(** *** The documented domain of a record *)

Definition fits (n : nat) (v : Z) : bool := (0 <=? v) && (v <? 2 ^ Z.of_nat n).

Definition between (lo hi v : Z) : bool := (lo <=? v) && (v <=? hi).

Definition parent_in_domain (p : SuccessionCharaData) : bool :=
  fits 20 (parent_card_id p)
  && between 1 5 (parent_talent_level p)
  && forallb (fits 24) (parent_factor_id_array p)
  && (length (parent_factor_id_array p) <=? 15)%nat.

Definition chara_in_domain (c : Chara) : bool :=
  fits 20 (card_id c)
  && between 1 5 (talent_level c)
  && forallb (between 0 2047) (stats c)
  && forallb (between 1 8) (aptitudes c)
  && forallb (fits 24) (factor_id_array c)
  && (length (factor_id_array c) <=? 15)%nat
  && forallb (fun s => fits 16 (skill_id s)) (skill_array c)
  && (length (skill_array c) <=? 63)%nat
  && forallb parent_in_domain (succession_chara_array c)
  && (length (succession_chara_array c) <=? 3)%nat.

(** What a round trip keeps of a record in its domain. *)
Definition skill_collapsed (s : SkillData) : SkillData :=
  mkSkillData (skill_id s) (if level s >? 1 then 2 else 1).

Definition parent_preserved (p q : SuccessionCharaData) : Prop :=
  parent_card_id q = parent_card_id p
  /\ parent_talent_level q = parent_talent_level p
  /\ parent_factor_id_array q = parent_factor_id_array p.

Definition chara_preserved (c d : Chara) : Prop :=
  card_id d = card_id c
  /\ talent_level d = talent_level c
  /\ stats d = stats c
  /\ aptitudes d = aptitudes c
  /\ factor_id_array d = factor_id_array c
  /\ skill_array d = map skill_collapsed (skill_array c)
  /\ Forall2 parent_preserved (succession_chara_array c) (succession_chara_array d).

(** *** What every decoded record satisfies *)

Definition level_is_flag (s : SkillData) : Prop := level s = 1 \/ level s = 2.

(** Each parent's position is its 1-based index in the list. *)
Definition positions_from_one (ps : list SuccessionCharaData) : Prop :=
  forall k p, nth_error ps k = Some p -> position_id p = Z.of_nat k + 1.

Definition chara_in_range (c : Chara) : Prop :=
  1 <= talent_level c <= 8
  /\ Forall (fun a => 1 <= a <= 8) (aptitudes c)
  /\ Forall (fun s => 0 <= s <= 2047) (stats c)
  /\ Forall level_is_flag (skill_array c)
  /\ (length (factor_id_array c) <= 15)%nat
  /\ (length (skill_array c) <= 63)%nat
  /\ (length (succession_chara_array c) <= 3)%nat
  /\ positions_from_one (succession_chara_array c)
  /\ rarity c = 3
  /\ support_card_list c = [].

(** *** The collection loop as the specification words it

    Section 4.3, step 4: on a record, append it; on none, stop the loop. *)
Fixpoint decodeCharas_loop_stop (n : nat) (i : nat) (charas : list Chara)
  : M (list Chara) :=
  match n with
  | O => ret charas
  | S k =>
      chara <- decodeChara (clock i) (random_seed i) ;;
      match chara with
      | Some c => decodeCharas_loop_stop k (S i) (charas ++ [c])
      | None => ret charas
      end
  end.

(** *** Inputs of the text decoder *)

Definition in_alphabet (c : ascii) : bool := negb (indexOf BASE64_CHARS c =? -1).

Fixpoint string_forallb (f : ascii -> bool) (s : string) : bool :=
  match s with
  | EmptyString => true
  | String c rest => f c && string_forallb f rest
  end.

(** *** Helpers of the statements *)

(** The header of a text: the declared count and the vector after the two
    header bytes. *)
Definition read_header (encoded : string) : Z * BitVector :=
  (version <- read 8 ;; read 8) (fromBase64 encoded).

(** The zero bits [padToBase64] appends to a vector of [n] bits. *)
Definition pad_count (n : nat) : nat := ((6 - Nat.modulo n 6) mod 6)%nat.

End WireImage.

(** ** The rest of the module *)

(** The [length] accessor of [BitVector]. *)
Definition BitVector_length (bv : BitVector) : nat := length (bits bv).

(** [Math.ceil(a / b)] for a positive divisor.  The source divides two
    doubles; for the totals that arise here (below 2 ^ 41, never a multiple
    of 6) the rounded quotient lies strictly between the same two integers as
    the exact one, so the ceiling is that of the exact quotient. *)
Definition Math_ceil_div (a b : Z) : Z := - ((- a) / b).

(** [estimateEncodedLength]: only the number of records is used. *)
Definition estimateEncodedLength {SupportCard : Type}
    (charas : list (CharaData SupportCard)) : Z :=
  let avgBitsPerChara := 300 in
  let headerBits := 16 in
  let totalBits := headerBits + Z.of_nat (length charas) * avgBitsPerChara in
  Math_ceil_div totalBits 6.

(** [getEncodedFromUrl], as a function of the value of
    [window.location.hash]: [hash.slice(1)], then [hash || null]. *)
Definition getEncodedFromUrl (location_hash : string) : option string :=
  let hash :=
    match location_hash with
    | EmptyString => EmptyString
    | String _ rest => rest
    end in
  match hash with
  | EmptyString => None
  | String _ _ => Some hash
  end.

(** *** Helpers of the further statements *)

Fixpoint string_filter (f : ascii -> bool) (s : string) : string :=
  match s with
  | EmptyString => EmptyString
  | String c rest =>
      if f c then String c (string_filter f rest) else string_filter f rest
  end.

(** The bits one parent and one record occupy, as numbers. *)
Definition parent_size (p : SuccessionCharaData) : nat :=
  27 + 24 * Nat.min 15 (length (parent_factor_id_array p)).

Definition chara_size {SupportCard : Type} (c : CharaData SupportCard) : nat :=
  120
  + 24 * Nat.min 15 (length (factor_id_array c))
  + 17 * Nat.min 63 (length (skill_array c))
  + list_sum (map parent_size (firstn 3 (succession_chara_array c))).

(** Two vectors with the same unread bits. *)
Definition Agree (bv1 bv2 : BitVector) : Prop :=
  skipn (readPos bv1) (bits bv1) = skipn (readPos bv2) (bits bv2).

(** [Respects m]: [m] cannot tell such vectors apart. *)
Definition Respects {A : Type} (m : M A) : Prop :=
  forall bv1 bv2,
    Agree bv1 bv2 ->
    fst (m bv1) = fst (m bv2) /\ Agree (snd (m bv1)) (snd (m bv2)).

(** [Consumes m d]: [m] leaves the bits as they are and moves the cursor at
    least [d] bits on. *)
Definition Consumes {A : Type} (m : M A) (d : nat) : Prop :=
  forall bv,
    bits (snd (m bv)) = bits bv
    /\ (readPos bv + d <= readPos (snd (m bv)))%nat.

(** ** Sample inputs *)

Definition sample_clock : nat -> string := fun _ => "2026-01-01 00:00:00"%string.

Definition sample_seed : nat -> Z := fun i => Z.of_nat i.

(** A record with no factor, no skill and no parent. *)
Definition blank_chara : CharaData unit :=
  {| card_id := 1; talent_level := 1; create_time := EmptyString;
     rarity := 0; chara_seed := 0;
     speed := 0; stamina := 0; power := 0; guts := 0; wiz := 0;
     proper_distance_short := 1; proper_distance_mile := 1;
     proper_distance_middle := 1; proper_distance_long := 1;
     proper_ground_turf := 1; proper_ground_dirt := 1;
     proper_running_style_nige := 1; proper_running_style_senko := 1;
     proper_running_style_sashi := 1; proper_running_style_oikomi := 1;
     factor_id_array := []; skill_array := [];
     succession_chara_array := []; support_card_list := [] |}.

(** A record within the documented domain. *)
Definition sample_chara : CharaData unit :=
  {| card_id := 100101; talent_level := 5; create_time := "2025-06-30 12:00:00";
     rarity := 2; chara_seed := 424242;
     speed := 1200; stamina := 800; power := 2047; guts := 0; wiz := 655;
     proper_distance_short := 1; proper_distance_mile := 2;
     proper_distance_middle := 3; proper_distance_long := 4;
     proper_ground_turf := 5; proper_ground_dirt := 6;
     proper_running_style_nige := 7; proper_running_style_senko := 8;
     proper_running_style_sashi := 1; proper_running_style_oikomi := 2;
     factor_id_array := [101; 2002; 16777215];
     skill_array := [mkSkillData 20001 1; mkSkillData 7 5; mkSkillData 65535 2];
     succession_chara_array :=
       [mkSuccessionCharaData 100201 3 [5; 6] 10;
        mkSuccessionCharaData 100301 1 [] 20];
     support_card_list := [tt] |}.

(** A record past the limits: a stat of 5000, twenty factors, a skill of
    level 5. *)
Definition overflow_chara : CharaData unit :=
  {| card_id := 100101; talent_level := 3; create_time := EmptyString;
     rarity := 1; chara_seed := 7;
     speed := 5000; stamina := 2048; power := 2047; guts := 10; wiz := 0;
     proper_distance_short := 1; proper_distance_mile := 1;
     proper_distance_middle := 1; proper_distance_long := 1;
     proper_ground_turf := 1; proper_ground_dirt := 1;
     proper_running_style_nige := 1; proper_running_style_senko := 1;
     proper_running_style_sashi := 1; proper_running_style_oikomi := 1;
     factor_id_array := map Z.of_nat (seq 1 20);
     skill_array := [mkSkillData 300 5; mkSkillData 301 1; mkSkillData 302 0];
     succession_chara_array := []; support_card_list := [] |}.

(** The text of [[blank_chara]] with its count byte changed from 1 to 2: two
    records declared, the bits of one. *)
Definition truncated_text : string := "AgIAABAAAAAAAAAAAAAAAAA"%string.

(** * Properties of the bit vector *)

(** ** The 32-bit operators on the values the codec uses *)

Lemma toInt32_small (z : Z) : - 2 ^ 31 <= z < 2 ^ 31 -> toInt32 z = z.
Proof.
  intros H. unfold toInt32. rewrite Z.mod_small; lia.
Qed.

Lemma toInt32_testbit (v i : Z) :
  0 <= i < 32 -> Z.testbit (toInt32 v) i = Z.testbit v i.
Proof.
  intros Hi.
  rewrite <- (Z.mod_pow2_bits_low (toInt32 v) 32 i) by lia.
  rewrite <- (Z.mod_pow2_bits_low v 32 i) by lia.
  f_equal. unfold toInt32.
  rewrite Zminus_mod_idemp_l. f_equal. lia.
Qed.

(** [(value >> k) & 1] is bit [k] of [value]. *)
Lemma js_bit (v k : Z) :
  0 <= k < 32 -> js_and (js_shr v k) 1 = Z.b2z (Z.testbit v k).
Proof.
  intros Hk. unfold js_and, js_shr.
  rewrite (Z.mod_small k 32) by lia.
  replace (toInt32 1) with (Z.ones 1) by reflexivity.
  rewrite Z.land_ones by lia.
  change (2 ^ 1) with 2. rewrite <- Z.bit0_mod.
  rewrite toInt32_testbit by lia.
  rewrite Z.shiftr_spec by lia.
  rewrite toInt32_testbit by lia.
  reflexivity.
Qed.

Lemma lor_double_bit (v b : Z) : 0 <= v -> is_bit b -> Z.lor (2 * v) b = 2 * v + b.
Proof.
  intros Hv [-> | ->].
  - rewrite Z.lor_0_r. lia.
  - destruct v; try lia; reflexivity.
Qed.

(** [(value << 1) | bit] appends a bit, as long as 31 bits are enough. *)
Lemma js_append_bit (v b : Z) :
  0 <= v < 2 ^ 30 -> is_bit b -> js_or (js_shl v 1) b = 2 * v + b.
Proof.
  intros Hv Hb. unfold js_or, js_shl.
  change (1 mod 32) with 1.
  rewrite (toInt32_small v) by lia.
  rewrite Z.shiftl_mul_pow2 by lia. change (2 ^ 1) with 2.
  rewrite !(toInt32_small (v * 2)) by lia.
  rewrite (toInt32_small b) by (destruct Hb; subst; lia).
  replace (v * 2) with (2 * v) by lia.
  apply lor_double_bit; [lia | exact Hb].
Qed.

(** ** Runs of bits *)

Lemma is_bit_b2z (b : bool) : is_bit (Z.b2z b).
Proof. destruct b; [right | left]; reflexivity. Qed.

Lemma write_bits_length (v : Z) (n : nat) : length (write_bits v n) = n.
Proof. induction n; simpl; congruence. Qed.

Lemma write_bits_is_bit (v : Z) (n : nat) : Forall is_bit (write_bits v n).
Proof. induction n; simpl; constructor; auto using is_bit_b2z. Qed.

Lemma pow2_succ (m : nat) : 2 ^ Z.of_nat (S m) = 2 * 2 ^ Z.of_nat m.
Proof. rewrite Nat2Z.inj_succ, Z.pow_succ_r by lia. reflexivity. Qed.

Lemma pow2_pos (m : nat) : 0 < 2 ^ Z.of_nat m.
Proof. apply Z.pow_pos_nonneg; lia. Qed.

Lemma pow2_le (m n : nat) : (m <= n)%nat -> 2 ^ Z.of_nat m <= 2 ^ Z.of_nat n.
Proof. intros H. apply Z.pow_le_mono_r; lia. Qed.

Lemma bits_value_bound (l : list Z) :
  forall acc m,
    Forall is_bit l -> 0 <= acc < 2 ^ Z.of_nat m ->
    0 <= bits_value acc l < 2 ^ Z.of_nat (m + length l).
Proof.
  induction l as [| b l IH]; intros acc m Hl Hacc; simpl.
  - rewrite Nat.add_0_r. exact Hacc.
  - inversion Hl as [| ? ? Hb Hl']; subst.
    rewrite Nat.add_succ_r. apply (IH (2 * acc + b) (S m) Hl').
    rewrite pow2_succ. destruct Hb; subst; lia.
Qed.

(** Reading back what [write_bits] lists gives the value modulo [2 ^ n]. *)
Lemma bits_value_write_bits (n : nat) :
  forall v acc,
    bits_value acc (write_bits v n) = acc * 2 ^ Z.of_nat n + v mod 2 ^ Z.of_nat n.
Proof.
  induction n as [| k IH]; intros v acc.
  - simpl. rewrite Z.mod_1_r. lia.
  - cbn [write_bits bits_value fold_left]. fold (bits_value (2 * acc + Z.b2z (Z.testbit v (Z.of_nat k))) (write_bits v k)).
    rewrite IH, pow2_succ.
    rewrite (Z.mul_comm 2 (2 ^ Z.of_nat k)).
    rewrite Z.rem_mul_r by (pose proof (pow2_pos k); lia).
    rewrite Z.testbit_spec' by lia. lia.
Qed.

Lemma skipn_cons_nth (bs : list Z) :
  forall p b rest,
    skipn p bs = b :: rest -> nth p bs 0 = b /\ skipn (S p) bs = rest.
Proof.
  induction bs as [| a bs IH]; intros p b rest H.
  - destruct p; discriminate.
  - destruct p as [| p].
    + inversion H. split; reflexivity.
    + apply (IH p b rest H).
Qed.

Lemma skipn_past (bs l post : list Z) (p : nat) :
  skipn p bs = l ++ post -> skipn (p + length l) bs = post.
Proof.
  intros H. rewrite Nat.add_comm, <- skipn_skipn, H.
  rewrite skipn_app, skipn_all, Nat.sub_diag. reflexivity.
Qed.

(** ** Writing and reading *)

Lemma write_loop_bits (n : nat) :
  forall v bs, (n <= 32)%nat -> write_loop v n bs = bs ++ write_bits v n.
Proof.
  induction n as [| k IH]; intros v bs Hn; simpl.
  - rewrite app_nil_r. reflexivity.
  - rewrite IH by lia. rewrite js_bit by lia.
    rewrite <- app_assoc. reflexivity.
Qed.

Lemma write_bits_of (bv : BitVector) (v : Z) (n : nat) :
  (n <= 32)%nat -> write bv v n = mkBitVector (bits bv ++ write_bits v n) (readPos bv).
Proof. intros H. unfold write. rewrite write_loop_bits by exact H. reflexivity. Qed.

Lemma read_loop_suffix (l : list Z) :
  forall bs p acc m post,
    skipn p bs = l ++ post ->
    Forall is_bit l ->
    0 <= acc < 2 ^ Z.of_nat m ->
    (m + length l <= 31)%nat ->
    read_loop (length l) acc (mkBitVector bs p)
    = (bits_value acc l, mkBitVector bs (p + length l)).
Proof.
  induction l as [| b l IH]; intros bs p acc m post Hs Hl Hacc Hm.
  - simpl. rewrite Nat.add_0_r. reflexivity.
  - inversion Hl as [| ? ? Hb Hl']; subst.
    simpl in Hs. destruct (skipn_cons_nth bs p b (l ++ post) Hs) as [Hn Hs'].
    cbn [length read_loop bits readPos]. rewrite Hn.
    assert (Hm30 : 2 ^ Z.of_nat m <= 2 ^ Z.of_nat 30) by (apply pow2_le; simpl in Hm; lia).
    change (2 ^ Z.of_nat 30) with (2 ^ 30) in Hm30.
    rewrite js_append_bit by (try assumption; lia).
    rewrite (IH bs (S p) (2 * acc + b) (S m) post Hs' Hl').
    + rewrite Nat.add_succ_r. reflexivity.
    + rewrite pow2_succ. destruct Hb; subst; lia.
    + simpl in Hm. lia.
Qed.

Lemma nth_is_bit (bs : list Z) (p : nat) : Forall is_bit bs -> is_bit (nth p bs 0).
Proof.
  intros H. destruct (nth_in_or_default p bs 0) as [Hin | ->].
  - rewrite Forall_forall in H. apply H, Hin.
  - left; reflexivity.
Qed.

Lemma read_loop_keeps (n : nat) :
  forall acc m bv,
    Forall is_bit (bits bv) ->
    0 <= acc < 2 ^ Z.of_nat m ->
    (m + n <= 31)%nat ->
    snd (read_loop n acc bv) = advance n bv
    /\ 0 <= fst (read_loop n acc bv) < 2 ^ Z.of_nat (m + n).
Proof.
  induction n as [| k IH]; intros acc m bv Hbv Hacc Hm.
  - simpl. unfold advance. rewrite !Nat.add_0_r. destruct bv; split; [reflexivity | exact Hacc].
  - cbn [read_loop].
    assert (Hb : is_bit (nth (readPos bv) (bits bv) 0)) by (apply nth_is_bit, Hbv).
    assert (Hm30 : 2 ^ Z.of_nat m <= 2 ^ Z.of_nat 30) by (apply pow2_le; lia).
    change (2 ^ Z.of_nat 30) with (2 ^ 30) in Hm30.
    rewrite js_append_bit by (try assumption; lia).
    destruct (IH (2 * acc + nth (readPos bv) (bits bv) 0) (S m)
                (mkBitVector (bits bv) (S (readPos bv)))) as [Hs Hv].
    + exact Hbv.
    + rewrite pow2_succ. destruct Hb as [-> | ->]; lia.
    + lia.
    + rewrite Hs. split.
      * unfold advance; simpl. f_equal. lia.
      * replace (m + S k)%nat with (S m + k)%nat by lia. exact Hv.
Qed.

(** ** Readers on a known prefix *)

Lemma Reads_ret {A : Type} (a : A) : Reads (ret a) [] a.
Proof.
  intros [bs p] post _. unfold ret, advance. simpl.
  rewrite Nat.add_0_r. reflexivity.
Qed.

Lemma Reads_bind {A B : Type} (m : M A) (k : A -> M B) (l1 l2 : list Z) (a : A) (b : B) :
  Reads m l1 a -> Reads (k a) l2 b -> Reads (bind m k) (l1 ++ l2) b.
Proof.
  intros Hm Hk bv post Hs. unfold bind.
  rewrite <- app_assoc in Hs.
  rewrite (Hm bv (l2 ++ post) Hs).
  rewrite (Hk (advance (length l1) bv) post).
  - unfold advance; simpl. rewrite length_app, Nat.add_assoc. reflexivity.
  - simpl. apply skipn_past. exact Hs.
Qed.

Lemma Reads_result {A : Type} (m : M A) (l : list Z) (a a' : A) :
  a = a' -> Reads m l a -> Reads m l a'.
Proof. intros ->. exact (fun H => H). Qed.

Lemma Reads_read (n : nat) (v : Z) :
  (n <= 31)%nat -> Reads (read n) (write_bits v n) (low n v).
Proof.
  intros Hn [bs p] post Hs. unfold read, advance, low. simpl in *.
  pose proof (read_loop_suffix (write_bits v n) bs p 0 0 post Hs
                (write_bits_is_bit v n)) as H.
  rewrite write_bits_length in H.
  rewrite H by (simpl; lia).
  rewrite bits_value_write_bits, write_bits_length. reflexivity.
Qed.

(** The same, with the rest of the program as a continuation. *)
Lemma Reads_read_then {B : Type} (n : nat) (v : Z) (k : Z -> M B) (rest : list Z) (b : B) :
  (n <= 31)%nat ->
  Reads (k (low n v)) rest b ->
  Reads (bind (read n) k) (write_bits v n ++ rest) b.
Proof. intros Hn Hk. eapply Reads_bind; [apply Reads_read, Hn | exact Hk]. Qed.

Lemma low_small (n : nat) (v : Z) : 0 <= v < 2 ^ Z.of_nat n -> low n v = v.
Proof. intros H. unfold low. apply Z.mod_small, H. Qed.

Lemma low_length (n m : nat) (A : Type) (l : list A) :
  2 ^ Z.of_nat n = Z.of_nat (S m) ->
  Z.to_nat (low n (Z.of_nat (length (firstn m l)))) = length (firstn m l).
Proof.
  intros H. pose proof (firstn_le_length m l).
  rewrite low_small by lia. apply Nat2Z.id.
Qed.

Lemma Reads_factor_ids (ids : list Z) :
  forall acc,
    Reads (read_factor_ids (length ids) acc)
      (flat_map (fun id => write_bits id 24) ids) (acc ++ map (low 24) ids).
Proof.
  induction ids as [| id ids IH]; intros acc.
  - simpl. rewrite app_nil_r. apply Reads_ret.
  - cbn [length read_factor_ids flat_map map].
    apply Reads_read_then; [lia |].
    eapply Reads_result; [| apply IH].
    rewrite <- app_assoc. reflexivity.
Qed.

Lemma Reads_factor_list {B : Type} (ids : list Z) (k : list Z -> M B) (rest : list Z) (b : B) :
  Reads (k (factor_image ids)) rest b ->
  Reads (bind (read 4) (fun factorCount =>
           bind (read_factor_ids (Z.to_nat factorCount) []) k))
    (factor_list_bits ids ++ rest) b.
Proof.
  intros Hk. unfold factor_list_bits. rewrite <- app_assoc.
  apply Reads_read_then; [lia |].
  rewrite low_length by reflexivity.
  eapply Reads_bind; [apply Reads_factor_ids | exact Hk].
Qed.

Lemma Reads_skills (skills : list SkillData) :
  forall acc,
    Reads (read_skills (length skills) acc)
      (flat_map skill_bits skills) (acc ++ map skill_image skills).
Proof.
  induction skills as [| s skills IH]; intros acc.
  - simpl. rewrite app_nil_r. apply Reads_ret.
  - cbn [length read_skills flat_map map]. unfold skill_bits at 1.
    rewrite <- !app_assoc.
    apply Reads_read_then; [lia |].
    apply Reads_read_then; [lia |].
    eapply Reads_result; [| apply IH].
    rewrite <- app_assoc. do 3 f_equal. unfold skill_image. f_equal.
    destruct (level s >? 1); reflexivity.
Qed.

Lemma Reads_parents (parents : list SuccessionCharaData) :
  forall i acc,
    Reads (read_parents (length parents) i acc)
      (flat_map parent_bits parents) (acc ++ parents_image i parents).
Proof.
  induction parents as [| p parents IH]; intros i acc.
  - simpl. rewrite app_nil_r. apply Reads_ret.
  - cbn [length read_parents flat_map parents_image]. unfold parent_bits at 1.
    rewrite <- !app_assoc.
    apply Reads_read_then; [lia |].
    apply Reads_read_then; [lia |].
    apply Reads_factor_list.
    eapply Reads_result; [| apply IH].
    rewrite <- app_assoc. reflexivity.
Qed.

Lemma remaining_suffix (bv : BitVector) (l : list Z) :
  skipn (readPos bv) (bits bv) = l -> Z.of_nat (length l) <= Z.max 0 (remaining bv).
Proof.
  intros <-. unfold remaining. rewrite length_skipn. lia.
Qed.

(** ** What the list writers append *)

Ltac unfold_writes :=
  repeat (first [ rewrite write_bits_of by lia | rewrite <- app_assoc ];
          cbn [bits readPos]).

Lemma write_ids_bits (ids : list Z) :
  forall bv,
    fold_left (fun bv factorId => write bv factorId 24) ids bv
    = mkBitVector (bits bv ++ flat_map (fun id => write_bits id 24) ids) (readPos bv).
Proof.
  induction ids as [| id ids IH]; intros bv; simpl.
  - rewrite app_nil_r. destruct bv; reflexivity.
  - rewrite IH. unfold_writes. reflexivity.
Qed.

Lemma write_skills_bits (skills : list SkillData) :
  forall bv,
    fold_left
      (fun bv skill =>
         let bv := write bv (skill_id skill) 16 in
         write bv (if level skill >? 1 then 1 else 0) 1)
      skills bv
    = mkBitVector (bits bv ++ flat_map skill_bits skills) (readPos bv).
Proof.
  induction skills as [| s skills IH]; intros bv; simpl.
  - rewrite app_nil_r. destruct bv; reflexivity.
  - rewrite IH. unfold skill_bits at 2. unfold_writes. reflexivity.
Qed.

Lemma write_parents_bits (parents : list SuccessionCharaData) :
  forall bv,
    fold_left
      (fun bv parent =>
         let bv := write bv (parent_card_id parent) 20 in
         let bv := write bv (parent_talent_level parent - 1) 3 in
         let parentFactors := firstn 15 (parent_factor_id_array parent) in
         let bv := write bv (Z.of_nat (length parentFactors)) 4 in
         fold_left (fun bv factorId => write bv factorId 24) parentFactors bv)
      parents bv
    = mkBitVector (bits bv ++ flat_map parent_bits parents) (readPos bv).
Proof.
  induction parents as [| p parents IH]; intros bv; simpl.
  - rewrite app_nil_r. destruct bv; reflexivity.
  - rewrite IH. unfold parent_bits at 2, factor_list_bits.
    rewrite write_ids_bits. unfold_writes. reflexivity.
Qed.

Lemma flat_map_is_bit {A : Type} (f : A -> list Z) (l : list A) :
  (forall a, Forall is_bit (f a)) -> Forall is_bit (flat_map f l).
Proof.
  intros H. induction l as [| a l IH]; simpl.
  - constructor.
  - apply Forall_app. split; [apply H | exact IH].
Qed.

Lemma Forall_is_bit_app (l1 l2 : list Z) :
  Forall is_bit l1 -> Forall is_bit l2 -> Forall is_bit (l1 ++ l2).
Proof. intros H1 H2. apply Forall_app. split; assumption. Qed.

Ltac bits_of_writes :=
  repeat first
    [ apply write_bits_is_bit
    | apply flat_map_is_bit; intros ?
    | apply Forall_is_bit_app
    | progress unfold skill_bits, parent_bits, factor_list_bits ].

(** ** Text conversion *)

Ltac lia_mod := zify; Z.to_euclidean_division_equations; lia.

Lemma padToBase64_loop_spec (fuel : nat) :
  forall bs,
    (pad_count (length bs) <= fuel)%nat ->
    padToBase64_loop fuel bs = bs ++ repeat 0 (pad_count (length bs)).
Proof.
  unfold pad_count.
  induction fuel as [| f IH]; intros bs Hf; cbn [padToBase64_loop].
  - replace ((6 - length bs mod 6) mod 6)%nat with 0%nat by lia.
    simpl. rewrite app_nil_r. reflexivity.
  - destruct (Nat.eqb_spec (length bs mod 6) 0) as [Hz | Hnz].
    + replace ((6 - length bs mod 6) mod 6)%nat with 0%nat by lia_mod.
      simpl. rewrite app_nil_r. reflexivity.
    + rewrite IH; rewrite length_app; cbn [length].
      * replace ((6 - length bs mod 6) mod 6)%nat
          with (S ((6 - (length bs + 1) mod 6) mod 6)) by lia_mod.
        cbn [repeat]. rewrite <- app_assoc. reflexivity.
      * lia_mod.
Qed.

(** Six units of fuel always reach the exit test of the padding loop. *)
Lemma padToBase64_exits (bs : list Z) :
  padToBase64_loop 6 bs = bs ++ repeat 0 (pad_count (length bs))
  /\ (length (padToBase64_loop 6 bs) mod 6 = 0)%nat.
Proof.
  assert (H : padToBase64_loop 6 bs = bs ++ repeat 0 (pad_count (length bs))).
  { apply padToBase64_loop_spec. unfold pad_count. lia_mod. }
  split; [exact H |].
  rewrite H, length_app, repeat_length. unfold pad_count. lia_mod.
Qed.

Lemma fromBase64_loop_app (s : string) :
  forall bs, fromBase64_loop s bs = bs ++ fromBase64_loop s [].
Proof.
  induction s as [| c s IH]; intros bs; cbn [fromBase64_loop].
  - rewrite app_nil_r. reflexivity.
  - destruct (indexOf BASE64_CHARS c =? -1).
    + apply IH.
    + rewrite (IH (write_loop _ 6 bs)), (IH (write_loop _ 6 [])).
      rewrite !write_loop_bits by lia. rewrite <- app_assoc. reflexivity.
Qed.

Lemma fromBase64_loop_append (s1 s2 : string) :
  forall bs,
    fromBase64_loop (s1 ++ s2) bs = fromBase64_loop s2 (fromBase64_loop s1 bs).
Proof.
  induction s1 as [| c s1 IH]; intros bs; cbn [fromBase64_loop append].
  - reflexivity.
  - destruct (indexOf BASE64_CHARS c =? -1); apply IH.
Qed.

Lemma fromBase64_loop_is_bit (s : string) :
  forall bs, Forall is_bit bs -> Forall is_bit (fromBase64_loop s bs).
Proof.
  induction s as [| c s IH]; intros bs Hbs; cbn [fromBase64_loop].
  - exact Hbs.
  - destruct (indexOf BASE64_CHARS c =? -1); apply IH; [exact Hbs |].
    rewrite write_loop_bits by lia.
    apply Forall_is_bit_app; [exact Hbs | apply write_bits_is_bit].
Qed.

Lemma sextet_loop_read (j : nat) :
  forall value bs k,
    sextet_loop j value bs k = fst (read_loop j value (mkBitVector bs k)).
Proof.
  induction j as [| j IH]; intros value bs k; simpl.
  - reflexivity.
  - apply IH.
Qed.

Lemma sextet_suffix (g post bs : list Z) (i : nat) :
  skipn i bs = g ++ post -> length g = 6%nat -> Forall is_bit g ->
  sextet_loop 6 0 bs i = bits_value 0 g.
Proof.
  intros Hs Hlen Hg. rewrite sextet_loop_read, <- Hlen.
  rewrite (read_loop_suffix g bs i 0 0 post Hs Hg) by (simpl; lia).
  reflexivity.
Qed.

(** The character of a six-bit group decodes to the group. *)
Lemma sextet_char_decodes (g : list Z) :
  length g = 6%nat -> Forall is_bit g ->
  fromBase64_loop (char_at BASE64_CHARS (bits_value 0 g)) [] = g.
Proof.
  intros Hlen Hg.
  do 7 (destruct g as [| ? g]; try discriminate).
  repeat match goal with
         | H : Forall is_bit (_ :: _) |- _ =>
             let Hb := fresh "Hb" in
             inversion H as [| ? ? Hb ?]; clear H; subst;
             destruct Hb; subst
         end;
    vm_compute; reflexivity.
Qed.

Lemma skipn_nil_length (bs : list Z) (i : nat) :
  skipn i bs = [] -> (length bs <= i)%nat.
Proof.
  intros H. apply (f_equal (@length Z)) in H.
  rewrite length_skipn in H. simpl in H. lia.
Qed.

Lemma skipn_cons_length (bs rest : list Z) (b : Z) (i : nat) :
  skipn i bs = b :: rest -> (i < length bs)%nat.
Proof.
  intros H. apply (f_equal (@length Z)) in H.
  rewrite length_skipn in H. simpl in H. lia.
Qed.

(** Decoding the text of the groups from index [i] on gives those groups. *)
Lemma toBase64_loop_decodes (m : nat) :
  forall fuel i bs result rest,
    skipn i bs = rest ->
    length rest = (6 * m)%nat ->
    Forall is_bit rest ->
    (m <= fuel)%nat ->
    fromBase64_loop (toBase64_loop fuel i bs result) []
    = fromBase64_loop result [] ++ rest.
Proof.
  induction m as [| m IH]; intros fuel i bs result rest Hs Hlen Hbits Hfuel.
  - destruct rest; [| discriminate].
    pose proof (skipn_nil_length bs i Hs) as Hi.
    rewrite app_nil_r.
    destruct fuel; cbn [toBase64_loop]; [reflexivity |].
    destruct (Nat.ltb_spec i (length bs)); [lia | reflexivity].
  - destruct fuel as [| fuel]; [lia |].
    rewrite <- (firstn_skipn 6 rest) in Hs, Hbits |- *.
    apply Forall_app in Hbits. destruct Hbits as [Hg Hrest].
    assert (Hglen : length (firstn 6 rest) = 6%nat)
      by (apply firstn_length_le; lia).
    cbn [toBase64_loop].
    destruct (Nat.ltb_spec i (length bs)) as [_ | Hi].
    + cbv zeta.
      rewrite (sextet_suffix _ _ bs i Hs Hglen Hg).
      rewrite (IH fuel (i + 6)%nat bs _ (skipn 6 rest)).
      * rewrite fromBase64_loop_append, fromBase64_loop_app.
        rewrite (sextet_char_decodes _ Hglen Hg).
        rewrite <- app_assoc. reflexivity.
      * rewrite <- Hglen at 1. apply skipn_past. exact Hs.
      * rewrite length_skipn. lia.
      * exact Hrest.
      * lia.
    + destruct (firstn 6 rest); [discriminate |].
      simpl in Hs. apply skipn_cons_length in Hs. lia.
Qed.

Lemma repeat_zero_is_bit (k : nat) : Forall is_bit (repeat 0 k).
Proof. induction k; simpl; constructor; [left; reflexivity | assumption]. Qed.

(** The text of a vector of bits decodes to the vector and its padding. *)
Lemma fromBase64_toBase64 (bv : BitVector) :
  Forall is_bit (bits bv) ->
  fromBase64 (toBase64 bv)
  = mkBitVector (bits bv ++ repeat 0 (pad_count (length (bits bv)))) 0.
Proof.
  intros Hbits. unfold fromBase64, toBase64, padToBase64. cbn [bits].
  destruct (padToBase64_exits (bits bv)) as [Hpad Hmod].
  set (bs := padToBase64_loop 6 (bits bv)) in *.
  f_equal.
  rewrite (toBase64_loop_decodes (length bs / 6) (length bs) 0 bs EmptyString bs).
  - simpl. exact Hpad.
  - reflexivity.
  - lia_mod.
  - rewrite Hpad. apply Forall_is_bit_app; [exact Hbits | apply repeat_zero_is_bit].
  - lia_mod.
Qed.

(** ** Readers on arbitrary bits *)

Lemma Keeps_ret {A : Type} (a : A) (P : A -> Prop) : P a -> Keeps (ret a) P.
Proof. intros Ha bv _. split; [reflexivity | exact Ha]. Qed.

Lemma Keeps_bind {A B : Type} (m : M A) (k : A -> M B) (P : A -> Prop) (Q : B -> Prop) :
  Keeps m P -> (forall a, P a -> Keeps (k a) Q) -> Keeps (bind m k) Q.
Proof.
  intros Hm Hk bv Hbv. unfold bind.
  destruct (Hm bv Hbv) as [Hbits Ha].
  destruct (m bv) as [a bv']. simpl in Hbits, Ha.
  destruct (Hk a Ha bv') as [Hbits' Hb].
  - rewrite Hbits. exact Hbv.
  - split; [congruence | exact Hb].
Qed.

Lemma Keeps_weaken {A : Type} (m : M A) (P Q : A -> Prop) :
  (forall a, P a -> Q a) -> Keeps m P -> Keeps m Q.
Proof.
  intros HPQ Hm bv Hbv. destruct (Hm bv Hbv) as [Hbits Ha].
  split; [exact Hbits | apply HPQ, Ha].
Qed.

Lemma Keeps_read (n : nat) :
  (n <= 31)%nat -> Keeps (read n) (fun v => 0 <= v < 2 ^ Z.of_nat n).
Proof.
  intros Hn bv Hbv. unfold read.
  destruct (read_loop_keeps n 0 0 bv Hbv) as [Hs Hv]; [simpl; lia | lia |].
  rewrite Hs. split; [reflexivity | exact Hv].
Qed.

Lemma Keeps_factor_ids (count : nat) :
  forall acc,
    Keeps (read_factor_ids count acc)
      (fun ids => length ids = (length acc + count)%nat).
Proof.
  induction count as [| k IH]; intros acc; cbn [read_factor_ids].
  - apply Keeps_ret. lia.
  - eapply Keeps_bind; [apply (Keeps_read 24); lia |].
    intros v _. eapply Keeps_weaken; [| apply IH].
    intros ids Hlen. rewrite Hlen, length_app. simpl. lia.
Qed.

Lemma Keeps_skills (count : nat) :
  forall acc,
    Forall level_is_flag acc ->
    Keeps (read_skills count acc)
      (fun skills => length skills = (length acc + count)%nat
                     /\ Forall level_is_flag skills).
Proof.
  induction count as [| k IH]; intros acc Hacc; cbn [read_skills].
  - apply Keeps_ret. split; [lia | exact Hacc].
  - eapply Keeps_bind; [apply (Keeps_read 16); lia |].
    intros id _.
    eapply Keeps_bind; [apply (Keeps_read 1); lia |].
    intros flag _. eapply Keeps_weaken; [| apply IH].
    + intros skills [Hlen Hall]. split; [| exact Hall].
      rewrite Hlen, length_app. simpl. lia.
    + apply Forall_app. split; [exact Hacc |].
      constructor; [| constructor].
      unfold level_is_flag. simpl. destruct (flag =? 0); auto.
Qed.

Lemma positions_snoc (ps : list SuccessionCharaData) (p : SuccessionCharaData) :
  positions_from_one ps ->
  position_id p = Z.of_nat (length ps) + 1 ->
  positions_from_one (ps ++ [p]).
Proof.
  intros Hps Hp k q Hk.
  destruct (Nat.lt_ge_cases k (length ps)) as [Hlt | Hge].
  - rewrite nth_error_app1 in Hk by exact Hlt. apply Hps, Hk.
  - rewrite nth_error_app2 in Hk by exact Hge.
    destruct (k - length ps)%nat as [| j] eqn:Hj; simpl in Hk.
    + inversion Hk; subst q. rewrite Hp. f_equal. lia.
    + destruct j; discriminate.
Qed.

Lemma Keeps_parents (count : nat) :
  forall i acc,
    i = Z.of_nat (length acc) ->
    positions_from_one acc ->
    Keeps (read_parents count i acc)
      (fun ps => length ps = (length acc + count)%nat /\ positions_from_one ps).
Proof.
  induction count as [| k IH]; intros i acc Hi Hacc; cbn [read_parents].
  - apply Keeps_ret. split; [lia | exact Hacc].
  - eapply Keeps_bind; [apply (Keeps_read 20); lia |].
    intros id _.
    eapply Keeps_bind; [apply (Keeps_read 3); lia |].
    intros t _.
    eapply Keeps_bind; [apply (Keeps_read 4); lia |].
    intros n _.
    eapply Keeps_bind; [apply Keeps_factor_ids |].
    intros ids _. eapply Keeps_weaken; [| apply IH].
    + intros ps [Hlen Hpos]. split; [| exact Hpos].
      rewrite Hlen, length_app. simpl. lia.
    + rewrite length_app. simpl. lia.
    + apply positions_snoc; [exact Hacc | simpl; lia].
Qed.

Ltac keep_read n :=
  eapply Keeps_bind; [apply (Keeps_read n); lia |];
  let v := fresh "v" in
  let Hv := fresh "Hv" in
  intros v Hv;
  let p := eval vm_compute in (2 ^ Z.of_nat n) in
  change (2 ^ Z.of_nat n) with p in Hv;
  cbv beta in Hv.

(** ** Readers that always return *)

Lemma Returns_ret {A : Type} (a : A) (Q : A -> Prop) : Q a -> Returns (ret a) Q.
Proof. intros Ha bv. exact Ha. Qed.

Lemma Returns_bind {A B : Type} (m : M A) (k : A -> M B) (Q : B -> Prop) :
  (forall a, Returns (k a) Q) -> Returns (bind m k) Q.
Proof. intros Hk bv. unfold bind. destruct (m bv) as [a bv']. apply Hk. Qed.

(** ** The header *)

Lemma read_advances (n : nat) (bv : BitVector) :
  snd (read n bv) = advance n bv.
Proof.
  unfold read. revert bv. generalize 0.
  induction n as [| k IH]; intros acc bv; cbn [read_loop].
  - unfold advance. rewrite Nat.add_0_r. destruct bv; reflexivity.
  - rewrite IH. unfold advance. simpl. f_equal. lia.
Qed.

Lemma read_header_vector (encoded : string) :
  snd (read_header encoded) = advance 16 (fromBase64 encoded).
Proof.
  unfold read_header, bind.
  pose proof (read_advances 8 (fromBase64 encoded)) as H1.
  destruct (read 8 (fromBase64 encoded)) as [version bv1]. simpl in H1. subst bv1.
  rewrite read_advances. reflexivity.
Qed.

(** ** Values within the documented domain *)

Lemma fits_spec (n : nat) (v : Z) : fits n v = true -> 0 <= v < 2 ^ Z.of_nat n.
Proof. unfold fits. rewrite andb_true_iff, Z.leb_le, Z.ltb_lt. tauto. Qed.

Lemma between_spec (lo hi v : Z) : between lo hi v = true -> lo <= v <= hi.
Proof. unfold between. rewrite andb_true_iff, !Z.leb_le. tauto. Qed.

Lemma low_fits (n : nat) (v : Z) : fits n v = true -> low n v = v.
Proof. intros H. apply low_small, fits_spec, H. Qed.

Lemma low_biased (v : Z) : 1 <= v <= 8 -> low 3 (v - 1) + 1 = v.
Proof. intros H. rewrite low_small by (simpl; lia). lia. Qed.

Lemma low_stat (s : Z) : 0 <= s <= 2047 -> low 11 (Z.min s 2047) = s.
Proof. intros H. rewrite low_small by (simpl; lia). lia. Qed.

Lemma map_low_fits (n : nat) (ids : list Z) :
  forallb (fits n) ids = true -> map (low n) ids = ids.
Proof.
  induction ids as [| id ids IH]; simpl; intros H.
  - reflexivity.
  - apply andb_true_iff in H. destruct H as [Hid Hids].
    rewrite low_fits by exact Hid. rewrite IH by exact Hids. reflexivity.
Qed.

Lemma factor_image_fits (ids : list Z) :
  forallb (fits 24) ids = true -> factor_image ids = firstn 15 ids.
Proof.
  intros H. unfold factor_image.
  rewrite <- firstn_map, map_low_fits by exact H. reflexivity.
Qed.

Lemma skill_image_fits (skills : list SkillData) :
  forallb (fun s => fits 16 (skill_id s)) skills = true ->
  map skill_image skills = map skill_collapsed skills.
Proof.
  induction skills as [| s skills IH]; simpl; intros H.
  - reflexivity.
  - apply andb_true_iff in H. destruct H as [Hs Hrest].
    rewrite IH by exact Hrest. unfold skill_image, skill_collapsed.
    rewrite low_fits by exact Hs. reflexivity.
Qed.

Ltac split_andb :=
  repeat match goal with
         | H : _ && _ = true |- _ =>
             apply andb_true_iff in H; destruct H
         end.

Lemma parents_image_preserved (ps : list SuccessionCharaData) :
  forall i,
    forallb parent_in_domain ps = true ->
    Forall2 parent_preserved ps (parents_image i ps).
Proof.
  induction ps as [| p ps IH]; intros i H; simpl.
  - constructor.
  - simpl in H. unfold parent_in_domain in H at 1. split_andb.
    constructor; [| apply IH; assumption].
    unfold parent_preserved. simpl.
    rewrite low_fits by assumption.
    rewrite low_biased
      by (match goal with Hb : between _ _ _ = true |- _ =>
                            apply between_spec in Hb; lia end).
    rewrite factor_image_fits by assumption.
    rewrite firstn_all2
      by (match goal with Hl : (_ <=? _)%nat = true |- _ =>
                            apply Nat.leb_le in Hl; exact Hl end).
    repeat split.
Qed.

Lemma forallb_firstn {A : Type} (f : A -> bool) (n : nat) (l : list A) :
  forallb f l = true -> forallb f (firstn n l) = true.
Proof.
  revert n. induction l as [| a l IH]; intros [| n] H; simpl; try reflexivity.
  simpl in H. apply andb_true_iff in H. destruct H as [Ha Hl].
  rewrite Ha. simpl. apply IH, Hl.
Qed.

(** ** Texts outside and over the alphabet *)

Lemma fromBase64_loop_foreign (s : string) :
  forall bs,
    string_forallb (fun c => negb (in_alphabet c)) s = true ->
    fromBase64_loop s bs = bs.
Proof.
  induction s as [| c s IH]; intros bs H; cbn [fromBase64_loop].
  - reflexivity.
  - simpl in H. apply andb_true_iff in H. destruct H as [Hc Hs].
    unfold in_alphabet in Hc. rewrite negb_involutive in Hc.
    rewrite Hc. apply IH, Hs.
Qed.

Lemma string_app_nil_r (s : string) : (s ++ EmptyString)%string = s.
Proof. induction s as [| c s IH]; simpl; [| rewrite IH]; reflexivity. Qed.

Lemma string_app_assoc (s1 s2 s3 : string) :
  ((s1 ++ s2) ++ s3)%string = (s1 ++ (s2 ++ s3))%string.
Proof. induction s1 as [| c s1 IH]; simpl; [| rewrite IH]; reflexivity. Qed.

Lemma indexOf_from_spec (s : string) (char : ascii) :
  forall i,
    indexOf_from s char i <> -1 ->
    0 <= i ->
    i <= indexOf_from s char i < i + Z.of_nat (String.length s)
    /\ String.get (Z.to_nat (indexOf_from s char i - i)) s = Some char.
Proof.
  induction s as [| a s IH]; intros i Hv Hi; cbn [indexOf_from] in *.
  - congruence.
  - cbn [String.length]. destruct (Ascii.eqb_spec a char) as [-> | Hne].
    + rewrite Z.sub_diag. simpl. split; [lia | reflexivity].
    + destruct (IH (i + 1) Hv) as [Hrange Hget]; [lia |].
      split; [lia |].
      replace (Z.to_nat (indexOf_from s char (i + 1) - i))
        with (S (Z.to_nat (indexOf_from s char (i + 1) - (i + 1)))) by lia.
      exact Hget.
Qed.

Lemma in_alphabet_char (c : ascii) :
  in_alphabet c = true ->
  0 <= indexOf BASE64_CHARS c < 64
  /\ char_at BASE64_CHARS (indexOf BASE64_CHARS c) = String c EmptyString.
Proof.
  unfold in_alphabet. rewrite negb_true_iff, Z.eqb_neq. intros Hv.
  destruct (indexOf_from_spec BASE64_CHARS c 0 Hv) as [Hrange Hget]; [lia |].
  fold (indexOf BASE64_CHARS c) in Hrange, Hget.
  change (Z.of_nat (String.length BASE64_CHARS)) with 64 in Hrange.
  split; [lia |]. unfold char_at.
  destruct (Z.ltb_spec (indexOf BASE64_CHARS c) 0); [lia |].
  rewrite Z.sub_0_r in Hget. rewrite Hget. reflexivity.
Qed.

Lemma fromBase64_loop_cons (c : ascii) (s : string) :
  in_alphabet c = true ->
  fromBase64_loop (String c s) []
  = write_bits (indexOf BASE64_CHARS c) 6 ++ fromBase64_loop s [].
Proof.
  intros Hc. cbn [fromBase64_loop]. unfold in_alphabet in Hc.
  apply negb_true_iff in Hc. cbv zeta. rewrite Hc.
  rewrite fromBase64_loop_app, write_loop_bits by lia. reflexivity.
Qed.

Lemma fromBase64_loop_length (s : string) :
  string_forallb in_alphabet s = true ->
  length (fromBase64_loop s []) = (6 * String.length s)%nat.
Proof.
  induction s as [| c s IH]; intros H.
  - reflexivity.
  - simpl in H. apply andb_true_iff in H. destruct H as [Hc Hs].
    rewrite fromBase64_loop_cons by exact Hc.
    rewrite length_app, write_bits_length, IH by exact Hs.
    cbn [String.length]. lia.
Qed.

(** Encoding the bits of a text over the alphabet, from the group at index
    [i] on, spells the text again. *)
Lemma toBase64_loop_text (s : string) :
  forall fuel i bs result,
    skipn i bs = fromBase64_loop s [] ->
    string_forallb in_alphabet s = true ->
    (String.length s <= fuel)%nat ->
    toBase64_loop fuel i bs result = (result ++ s)%string.
Proof.
  induction s as [| c s IH]; intros fuel i bs result Hs Hall Hfuel.
  - rewrite string_app_nil_r. cbn [fromBase64_loop] in Hs.
    apply skipn_nil_length in Hs.
    destruct fuel; cbn [toBase64_loop]; [reflexivity |].
    destruct (Nat.ltb_spec i (length bs)); [lia | reflexivity].
  - simpl in Hall. apply andb_true_iff in Hall. destruct Hall as [Hc Hrest].
    rewrite fromBase64_loop_cons in Hs by exact Hc.
    destruct (in_alphabet_char c Hc) as [Hrange Hchar].
    destruct fuel as [| fuel]; [simpl in Hfuel; lia |].
    cbn [toBase64_loop].
    destruct (Nat.ltb_spec i (length bs)) as [_ | Hi].
    + cbv zeta.
      rewrite (sextet_suffix _ _ bs i Hs (write_bits_length _ 6) (write_bits_is_bit _ 6)).
      rewrite bits_value_write_bits.
      rewrite Z.mod_small by (simpl; lia).
      rewrite Z.mul_0_l, Z.add_0_l, Hchar.
      rewrite (IH fuel (i + 6)%nat bs).
      * rewrite string_app_assoc. reflexivity.
      * rewrite <- (write_bits_length (indexOf BASE64_CHARS c) 6) at 1.
        apply skipn_past. exact Hs.
      * exact Hrest.
      * simpl in Hfuel. lia.
    + cbn [write_bits app] in Hs. apply skipn_cons_length in Hs. lia.
Qed.

(** A text over the alphabet survives the trip through bits, whatever its
    length: its bits are a whole number of six-bit groups. *)
Lemma toBase64_fromBase64_alphabet (s : string) :
  string_forallb in_alphabet s = true -> toBase64 (fromBase64 s) = s.
Proof.
  intros Hall. unfold toBase64, fromBase64, padToBase64. cbn [bits].
  destruct (padToBase64_exits (fromBase64_loop s [])) as [Hpad _].
  pose proof (fromBase64_loop_length s Hall) as Hlen.
  rewrite Hpad.
  replace (pad_count (length (fromBase64_loop s []))) with 0%nat
    by (unfold pad_count; lia_mod).
  cbn [repeat]. rewrite app_nil_r.
  rewrite (toBase64_loop_text s); [reflexivity | reflexivity | exact Hall | lia].
Qed.

(** C8.  A text made only of alphabet characters, its length a multiple of 4,
    is returned unchanged by [toBase64] after [fromBase64]. *)
Theorem toBase64_fromBase64 (s : string) :
  string_forallb in_alphabet s = true ->
  (String.length s mod 4 = 0)%nat ->
  toBase64 (fromBase64 s) = s.
Proof.
  intros Hall _. apply toBase64_fromBase64_alphabet, Hall.
Qed.

(** * Properties of the record codec *)

Section Properties.

Context {SupportCard : Type}.

#[local] Abbreviation Chara := (CharaData SupportCard).

(** ** The bits of one record *)

Lemma chara_bits_length (c : Chara) :
  length (chara_bits c)
  = (120
     + length (flat_map (fun id => write_bits id 24) (firstn 15 (factor_id_array c)))
     + length (flat_map skill_bits (firstn 63 (skill_array c)))
     + length (flat_map parent_bits (firstn 3 (succession_chara_array c))))%nat.
Proof.
  unfold chara_bits, stats, aptitudes, factor_list_bits. cbn [flat_map].
  rewrite !length_app, !write_bits_length. simpl. lia.
Qed.

(** On the bits of a record, the field reader rebuilds its wire image. *)
Lemma decodeChara_fields_reads (now : string) (seed : Z) (c : Chara) :
  Reads (decodeChara_fields now seed) (chara_bits c) (Some (wire_image now seed c)).
Proof.
  unfold decodeChara_fields, chara_bits, stats, aptitudes. cbn [flat_map].
  rewrite <- !app_assoc. cbn [app].
  do 17 (apply Reads_read_then; [lia |]).
  apply Reads_factor_list.
  apply Reads_read_then; [lia |].
  rewrite low_length by reflexivity.
  eapply Reads_bind; [apply Reads_skills |].
  apply Reads_read_then; [lia |].
  rewrite low_length by reflexivity.
  rewrite <- (app_nil_r (flat_map parent_bits _)).
  eapply Reads_bind; [apply Reads_parents |].
  apply Reads_ret.
Qed.

Lemma decodeChara_reads (now : string) (seed : Z) (c : Chara) :
  Reads (decodeChara now seed) (chara_bits c) (Some (wire_image now seed c)).
Proof.
  intros bv post Hs. unfold decodeChara.
  pose proof (remaining_suffix bv _ Hs) as Hrem.
  rewrite length_app, chara_bits_length in Hrem.
  destruct (Z.ltb_spec (remaining bv) 108) as [Hlt | _]; [lia |].
  apply (decodeChara_fields_reads now seed c bv post Hs).
Qed.

(** [encodeChara] appends exactly [chara_bits] and leaves the cursor alone. *)
Lemma encodeChara_bits (bv : BitVector) (c : Chara) :
  encodeChara bv c = mkBitVector (bits bv ++ chara_bits c) (readPos bv).
Proof.
  unfold encodeChara. cbv zeta.
  rewrite write_parents_bits, write_skills_bits, write_ids_bits.
  unfold chara_bits, stats, aptitudes, factor_list_bits. cbn [flat_map].
  unfold_writes. reflexivity.
Qed.

Lemma encodeCharas_fold_bits (cs : list Chara) :
  forall bv,
    fold_left encodeChara cs bv
    = mkBitVector (bits bv ++ flat_map chara_bits cs) (readPos bv).
Proof.
  induction cs as [| c cs IH]; intros bv; simpl.
  - rewrite app_nil_r. destruct bv; reflexivity.
  - rewrite IH, encodeChara_bits. simpl. rewrite <- app_assoc. reflexivity.
Qed.

Lemma chara_bits_is_bit (c : Chara) : Forall is_bit (chara_bits c).
Proof. unfold chara_bits. bits_of_writes. Qed.

Lemma firstn_count (cs : list Chara) :
  Z.to_nat (low 8 (Z.min (Z.of_nat (length cs)) 255)) = length (firstn 255 cs).
Proof.
  rewrite length_firstn. rewrite low_small by (change (2 ^ Z.of_nat 8) with 256; lia).
  lia.
Qed.

(** ** Records decoded from arbitrary bits *)

(** Every record the field reader builds is complete and in range. *)
Lemma decodeChara_fields_keeps (now : string) (seed : Z) :
  Keeps (decodeChara_fields now seed)
    (fun r => exists c : Chara, r = Some c /\ chara_in_range c).
Proof.
  unfold decodeChara_fields.
  keep_read 20%nat. keep_read 3%nat.
  do 5 keep_read 11%nat.
  do 10 keep_read 3%nat.
  keep_read 4%nat.
  eapply Keeps_bind; [apply Keeps_factor_ids |]. intros ids Hids.
  keep_read 6%nat.
  eapply Keeps_bind; [apply Keeps_skills; constructor |]. intros skills [Hslen Hskills].
  keep_read 2%nat.
  eapply Keeps_bind;
    [apply Keeps_parents; [reflexivity | intros [| ?] ? ?; discriminate] |].
  intros ps [Hplen Hps].
  apply Keeps_ret. eexists. split; [reflexivity |].
  unfold chara_in_range, aptitudes, stats. cbn [length Nat.add] in *.
  cbn -[Z.add Z.le Z.lt].
  repeat match goal with
         | |- _ /\ _ => split
         | |- Forall _ (_ :: _) => constructor
         | |- Forall _ [] => constructor
         end; try lia; try assumption; try reflexivity.
Qed.

Lemma decodeChara_keeps (now : string) (seed : Z) :
  Keeps (decodeChara now seed)
    (fun r : option Chara =>
       match r with Some c => chara_in_range c | None => True end).
Proof.
  intros bv Hbv. unfold decodeChara.
  destruct (remaining bv <? 108).
  - split; [reflexivity | exact I].
  - destruct (decodeChara_fields_keeps now seed bv Hbv) as [Hb [c [Hc Hr]]].
    split; [exact Hb |]. rewrite Hc. exact Hr.
Qed.

(** ** The guard of [decodeChara] *)

(** Past the guard a record is always built. *)
Lemma decodeChara_fields_some (now : string) (seed : Z) :
  Returns (decodeChara_fields now seed) (fun r => r <> (None : option Chara)).
Proof.
  unfold decodeChara_fields.
  repeat (apply Returns_bind; intros ?).
  apply Returns_ret. discriminate.
Qed.

Lemma decodeChara_none (now : string) (seed : Z) (bv : BitVector) :
  remaining bv < 108 -> decodeChara now seed bv = ((None : option Chara), bv).
Proof.
  intros H. unfold decodeChara.
  destruct (Z.ltb_spec (remaining bv) 108); [reflexivity | lia].
Qed.

Lemma decodeChara_none_inv (now : string) (seed : Z) (bv : BitVector) :
  fst (decodeChara now seed bv) = (None : option Chara) -> remaining bv < 108.
Proof.
  unfold decodeChara.
  destruct (Z.ltb_spec (remaining bv) 108) as [Hlt | Hge]; intros H.
  - exact Hlt.
  - exfalso. exact (decodeChara_fields_some now seed bv H).
Qed.

(** ** Records within the documented domain *)

Lemma wire_image_preserved (now : string) (seed : Z) (c : Chara) :
  chara_in_domain c = true -> chara_preserved c (wire_image now seed c).
Proof.
  intros H. unfold chara_in_domain, stats, aptitudes in H. cbn [forallb] in H.
  split_andb.
  repeat match goal with
         | Hb : between _ _ _ = true |- _ => apply between_spec in Hb
         | Hl : (_ <=? _)%nat = true |- _ => apply Nat.leb_le in Hl
         end.
  unfold chara_preserved, stats, aptitudes.
  cbn [wire_image card_id talent_level speed stamina power guts wiz
       proper_distance_short proper_distance_mile proper_distance_middle
       proper_distance_long proper_ground_turf proper_ground_dirt
       proper_running_style_nige proper_running_style_senko
       proper_running_style_sashi proper_running_style_oikomi
       factor_id_array skill_array succession_chara_array].
  rewrite !low_biased by lia. rewrite !low_stat by lia.
  rewrite low_fits by assumption.
  rewrite factor_image_fits by assumption.
  rewrite !firstn_all2 by assumption.
  rewrite skill_image_fits by assumption.
  repeat split. apply parents_image_preserved. assumption.
Qed.

(** C3, as amended.  A record with no factors, no skills and no parents
    occupies exactly 120 bits (the 108 bits of the fixed fields and the three
    counts of 4, 6 and 2 bits), and no record occupies fewer; [decodeChara]
    returns none exactly when fewer than 108 bits remain unread. *)
Theorem encodeChara_minimum_size (bv : BitVector) (c : Chara) :
  factor_id_array c = [] ->
  skill_array c = [] ->
  succession_chara_array c = [] ->
  length (bits (encodeChara bv c)) = (length (bits bv) + 120)%nat
  /\ (forall (bv' : BitVector) (c' : Chara),
        (length (bits bv') + 120 <= length (bits (encodeChara bv' c')))%nat)
  /\ (forall now seed bv',
        fst (decodeChara now seed bv') = (None : option Chara)
        <-> remaining bv' < 108).
Proof.
  intros Hf Hs Hp. split; [| split].
  - rewrite encodeChara_bits. cbn [bits].
    rewrite length_app, chara_bits_length, Hf, Hs, Hp. simpl. lia.
  - intros bv' c'. rewrite encodeChara_bits. cbn [bits].
    rewrite length_app, chara_bits_length. lia.
  - intros now seed bv'. split.
    + apply decodeChara_none_inv.
    + intros H. rewrite decodeChara_none by exact H. reflexivity.
Qed.

(** * Properties of the collection codec *)

Section Collection.

Variable clock : nat -> string.
Variable random_seed : nat -> Z.

(** ** The collection round trip *)

Lemma decodeCharas_loop_reads (cs : list Chara) :
  forall i acc,
    Reads (decodeCharas_loop clock random_seed (length cs) i acc)
      (flat_map chara_bits cs) (acc ++ wire_images clock random_seed i cs).
Proof.
  induction cs as [| c cs IH]; intros i acc.
  - simpl. rewrite app_nil_r. apply Reads_ret.
  - cbn [length decodeCharas_loop flat_map wire_images].
    eapply Reads_bind; [apply decodeChara_reads |].
    eapply Reads_result; [| apply IH].
    rewrite <- app_assoc. reflexivity.
Qed.

(** Decoding an encoded collection yields the wire images of its first 255
    records, whatever the field values. *)
Lemma decodeCharas_encodeCharas (cs : list Chara) :
  decodeCharas clock random_seed (encodeCharas cs) = wire_images clock random_seed 0 (firstn 255 cs).
Proof.
  unfold decodeCharas, encodeCharas. cbv zeta.
  rewrite encodeCharas_fold_bits. unfold ENCODING_VERSION, new_BitVector.
  unfold_writes.
  rewrite fromBase64_toBase64.
  - cbn [bits app].
    set (pad := repeat 0 _).
    match goal with
    | |- fst (?m ?bv) = _ =>
        assert (H : Reads m
                      (write_bits 2 8
                       ++ write_bits (Z.min (Z.of_nat (length cs)) 255) 8
                       ++ flat_map chara_bits (firstn 255 cs))
                      (wire_images clock random_seed 0 (firstn 255 cs)))
    end.
    { apply Reads_read_then; [lia |].
      rewrite <- (app_nil_r (flat_map chara_bits _)).
      apply Reads_read_then; [lia |].
      rewrite firstn_count. rewrite app_nil_r.
      apply (decodeCharas_loop_reads (firstn 255 cs) 0%nat []). }
    rewrite (H _ pad).
    + reflexivity.
    + cbn [bits readPos skipn]. rewrite <- !app_assoc. reflexivity.
  - cbn [bits app]. bits_of_writes.
Qed.

(** ** The collection loop *)

Lemma decodeCharas_loop_keeps (n : nat) :
  forall i (acc : list Chara),
    Forall chara_in_range acc ->
    Keeps (decodeCharas_loop clock random_seed n i acc)
      (fun charas => Forall chara_in_range charas
                     /\ (length charas <= length acc + n)%nat).
Proof.
  induction n as [| k IH]; intros i acc Hacc; cbn [decodeCharas_loop].
  - apply Keeps_ret. split; [exact Hacc | lia].
  - eapply Keeps_bind; [apply decodeChara_keeps |].
    intros [c |] Hc.
    + eapply Keeps_weaken; [| apply IH].
      * intros charas [Hall Hlen]. split; [exact Hall |].
        rewrite length_app in Hlen. simpl in Hlen. lia.
      * apply Forall_app. split; [exact Hacc | constructor; [exact Hc | constructor]].
    + eapply Keeps_weaken; [| apply IH, Hacc].
      intros charas [Hall Hlen]. split; [exact Hall | lia].
Qed.

(** With fewer than 108 bits left, the loop changes nothing, however many
    entries are still declared. *)
Lemma decodeCharas_loop_none (n : nat) :
  forall i (charas : list Chara) bv,
    remaining bv < 108 ->
    decodeCharas_loop clock random_seed n i charas bv = (charas, bv).
Proof.
  induction n as [| k IH]; intros i charas bv Hrem; cbn [decodeCharas_loop].
  - reflexivity.
  - unfold bind. rewrite decodeChara_none by exact Hrem. apply IH, Hrem.
Qed.

Lemma decodeCharas_loop_stop_none (n : nat) (i : nat) (charas : list Chara) (bv : BitVector) :
  remaining bv < 108 -> decodeCharas_loop_stop clock random_seed n i charas bv = (charas, bv).
Proof.
  intros Hrem. destruct n as [| k]; cbn [decodeCharas_loop_stop].
  - reflexivity.
  - unfold bind. rewrite decodeChara_none by exact Hrem. reflexivity.
Qed.

(** The loop of the source and the loop that stops at the first failure
    compute the same records and leave the same vector. *)
Lemma decodeCharas_loop_refines_stop (n : nat) :
  forall i (charas : list Chara) bv,
    decodeCharas_loop clock random_seed n i charas bv
    = decodeCharas_loop_stop clock random_seed n i charas bv.
Proof.
  induction n as [| k IH]; intros i charas bv.
  - reflexivity.
  - cbn [decodeCharas_loop decodeCharas_loop_stop]. unfold bind.
    destruct (decodeChara (clock i) (random_seed i) bv) as [[c |] bv'] eqn:E.
    + apply IH.
    + assert (Hrem : remaining bv < 108)
        by (apply (decodeChara_none_inv (clock i) (random_seed i)); rewrite E; reflexivity).
      rewrite decodeChara_none in E by exact Hrem.
      inversion E; subst bv'.
      apply decodeCharas_loop_none, Hrem.
Qed.

(** Running [k + n] entries is running [k] and then [n] more. *)
Lemma decodeCharas_loop_split (k n : nat) :
  forall i (charas : list Chara) bv,
    decodeCharas_loop clock random_seed (k + n) i charas bv
    = decodeCharas_loop clock random_seed n (i + k)
        (fst (decodeCharas_loop clock random_seed k i charas bv))
        (snd (decodeCharas_loop clock random_seed k i charas bv)).
Proof.
  induction k as [| k IH]; intros i charas bv.
  - simpl. rewrite Nat.add_0_r. reflexivity.
  - cbn [Nat.add decodeCharas_loop]. unfold bind.
    destruct (decodeChara (clock i) (random_seed i) bv) as [[c |] bv'];
      rewrite IH; replace (S i + k)%nat with (i + S k)%nat by lia; reflexivity.
Qed.

Lemma decodeCharas_header (encoded : string) :
  decodeCharas clock random_seed encoded
  = fst (decodeCharas_loop clock random_seed
           (Z.to_nat (fst (read_header encoded))) 0 ([] : list Chara)
           (snd (read_header encoded))).
Proof.
  unfold decodeCharas, read_header, bind.
  destruct (read 8 (fromBase64 encoded)) as [version bv1].
  destruct (read 8 bv1) as [count bv2]. reflexivity.
Qed.

Lemma wire_images_length (cs : list Chara) :
  forall i, length (wire_images clock random_seed i cs) = length cs.
Proof. induction cs as [| c cs IH]; intros i; simpl; [| rewrite IH]; reflexivity. Qed.

Lemma wire_images_nth (cs : list Chara) :
  forall i k c,
    nth_error cs k = Some c ->
    nth_error (wire_images clock random_seed i cs) k
    = Some (wire_image (clock (i + k)) (random_seed (i + k)) c).
Proof.
  induction cs as [| c0 cs IH]; intros i k c Hk.
  - destruct k; discriminate.
  - destruct k as [| k]; simpl in Hk |- *.
    + inversion Hk. rewrite Nat.add_0_r. reflexivity.
    + rewrite (IH (S i) k c Hk). rewrite Nat.add_succ_r. reflexivity.
Qed.

Lemma wire_images_preserved (cs : list Chara) :
  forall i,
    forallb chara_in_domain cs = true ->
    Forall2 chara_preserved cs (wire_images clock random_seed i cs).
Proof.
  induction cs as [| c cs IH]; intros i H; simpl.
  - constructor.
  - simpl in H. apply andb_true_iff in H. destruct H as [Hc Hcs].
    constructor; [apply wire_image_preserved, Hc | apply IH, Hcs].
Qed.

(** The entry at index [i] of a round trip is the wire image of entry [i]. *)
Lemma roundtrip_nth (cs : list Chara) (i : nat) (c : Chara) :
  nth_error cs i = Some c -> (i < 255)%nat ->
  nth_error (decodeCharas clock random_seed (encodeCharas cs)) i
  = Some (wire_image (clock i) (random_seed i) c).
Proof.
  intros Hc Hi. rewrite decodeCharas_encodeCharas.
  apply (wire_images_nth (firstn 255 cs) 0%nat i c).
  rewrite nth_error_firstn.
  destruct (Nat.ltb_spec i 255); [exact Hc | lia].
Qed.

(** A text of fewer than 124 bits decodes to no record at all. *)
Lemma decodeCharas_short (encoded : string) :
  (length (bits (fromBase64 encoded)) < 124)%nat ->
  decodeCharas clock random_seed encoded = ([] : list Chara).
Proof.
  intros H. rewrite decodeCharas_header, decodeCharas_loop_none; [reflexivity |].
  rewrite read_header_vector. unfold remaining, advance. cbn [bits readPos].
  change (readPos (fromBase64 encoded)) with 0%nat. lia.
Qed.

(** ** The claims on collections *)

(** C1.  For every collection whose records lie in the documented domain
    (card id in 20 bits, talent level 1 to 5, stats 0 to 2047, aptitudes 1 to
    8, factor ids in 24 bits and at most 15 of them, skill ids in 16 bits and
    at most 63 of them, at most 3 parents, themselves in their domain),
    [decodeCharas (encodeCharas cs)] has [min (length cs) 255] records and
    keeps, record by record over the first 255, the card id, talent level,
    five stats, ten aptitudes, factor ids, skill ids with each level mapped
    to 2 when it was above 1 and to 1 otherwise, and each parent's card id,
    talent level and factor ids; for a collection of at most 255 records this
    is every record. *)
Theorem decodeCharas_encodeCharas_roundtrip (cs : list Chara) :
  forallb chara_in_domain cs = true ->
  let decoded := decodeCharas clock random_seed (encodeCharas cs) in
  length decoded = Nat.min (length cs) 255
  /\ Forall2 chara_preserved (firstn 255 cs) decoded
  /\ ((length cs <= 255)%nat -> Forall2 chara_preserved cs decoded).
Proof.
  intros Hdom decoded. subst decoded.
  rewrite decodeCharas_encodeCharas.
  assert (H255 : Forall2 chara_preserved (firstn 255 cs)
                   (wire_images clock random_seed 0 (firstn 255 cs)))
    by (apply wire_images_preserved, forallb_firstn, Hdom).
  split; [| split].
  - rewrite wire_images_length, length_firstn. lia.
  - exact H255.
  - intros Hlen. rewrite firstn_all2 in H255 by exact Hlen.
    rewrite firstn_all2 by exact Hlen. exact H255.
Qed.

(** C2.  When [decodeChara] yields none for the declared entry [k], nothing is
    appended for that entry or for any later one, and [decodeCharas] returns
    exactly the records decoded before it: the result is the one of the loop
    that stops at the first failure.  (The source loop has no [break]; the
    later iterations run and change nothing.) *)
Theorem decodeCharas_stops_at_none (encoded : string) (k : nat) :
  let declared := Z.to_nat (fst (read_header encoded)) in
  let start := snd (read_header encoded) in
  let before := decodeCharas_loop clock random_seed k 0 ([] : list Chara) start in
  (k < declared)%nat ->
  fst (decodeChara (clock k) (random_seed k) (snd before)) = (None : option Chara) ->
  decodeCharas clock random_seed encoded = fst before
  /\ (forall n i,
        decodeCharas_loop clock random_seed n i (fst before) (snd before)
        = (fst before, snd before))
  /\ decodeCharas clock random_seed encoded
     = fst (decodeCharas_loop_stop clock random_seed declared 0 ([] : list Chara) start).
Proof.
  intros declared start before Hk Hnone.
  apply decodeChara_none_inv in Hnone.
  assert (Hrest : forall n i,
             decodeCharas_loop clock random_seed n i (fst before) (snd before)
             = (fst before, snd before))
    by (intros n i; apply decodeCharas_loop_none, Hnone).
  assert (Hall : decodeCharas clock random_seed encoded = fst before).
  { rewrite decodeCharas_header. fold declared start.
    replace declared with (k + (declared - k))%nat by lia.
    rewrite decodeCharas_loop_split. fold before.
    rewrite Hrest. reflexivity. }
  split; [exact Hall |]. split; [exact Hrest |].
  rewrite <- decodeCharas_loop_refines_stop.
  apply decodeCharas_header.
Qed.

(** C4.  [decodeCharas] returns a sequence for every text, and the empty one
    for the empty text, for a text of characters outside the alphabet only,
    and for a text of fewer bits than the 16-bit header. *)
Theorem decodeCharas_never_raises (encoded : string) :
  (exists charas : list Chara, decodeCharas clock random_seed encoded = charas)
  /\ (encoded = EmptyString -> decodeCharas clock random_seed encoded = ([] : list Chara))
  /\ (string_forallb (fun c => negb (in_alphabet c)) encoded = true ->
      decodeCharas clock random_seed encoded = ([] : list Chara))
  /\ ((length (bits (fromBase64 encoded)) < 16)%nat ->
      decodeCharas clock random_seed encoded = ([] : list Chara)).
Proof.
  split; [eexists; reflexivity |]. split; [| split].
  - intros ->. reflexivity.
  - intros H. apply decodeCharas_short. unfold fromBase64. cbn [bits].
    rewrite fromBase64_loop_foreign by exact H. simpl. lia.
  - intros H. apply decodeCharas_short. lia.
Qed.

(** C5.  Each stat is clamped to at most 2047 before its 11 bits are written,
    with no lower clamp: the decoded stat is the low 11 bits of
    [min stat 2047], and a stat above 2047 comes back as 2047. *)
Theorem encodeChara_clamps_stats (cs : list Chara) (i : nat) (c : Chara) :
  nth_error cs i = Some c ->
  (i < 255)%nat ->
  exists d : Chara,
    nth_error (decodeCharas clock random_seed (encodeCharas cs)) i = Some d
    /\ stats d = map (fun s => low 11 (Z.min s 2047)) (stats c)
    /\ Forall2 (fun s t => 2047 < s -> t = 2047) (stats c) (stats d).
Proof.
  intros Hc Hi. eexists. split; [apply roundtrip_nth; eassumption |].
  split; [reflexivity |].
  unfold stats. simpl.
  repeat constructor; intros H;
    rewrite Z.min_r by lia; reflexivity.
Qed.

(** C6.  The factor list is cut to its first 15 entries, in order: with
    factor ids that fit 24 bits, the decoded list is the first 15 entries of
    the original, so a longer list comes back with exactly 15. *)
Theorem encodeChara_truncates_factors (cs : list Chara) (i : nat) (c : Chara) :
  nth_error cs i = Some c ->
  (i < 255)%nat ->
  forallb (fits 24) (factor_id_array c) = true ->
  exists d : Chara,
    nth_error (decodeCharas clock random_seed (encodeCharas cs)) i = Some d
    /\ factor_id_array d = firstn 15 (factor_id_array c)
    /\ ((15 < length (factor_id_array c))%nat ->
        length (factor_id_array d) = 15%nat).
Proof.
  intros Hc Hi Hfit. eexists. split; [apply roundtrip_nth; eassumption |].
  cbn [wire_image factor_id_array].
  rewrite factor_image_fits by exact Hfit.
  split; [reflexivity |].
  intros Hlen. rewrite length_firstn. lia.
Qed.

(** C7.  Skill levels collapse to a flag: the decoded skills are the first 63
    of the original, each with level 2 when its level was above 1 and level 1
    otherwise. *)
Theorem skill_levels_collapse (cs : list Chara) (i : nat) (c : Chara) :
  nth_error cs i = Some c ->
  (i < 255)%nat ->
  exists d : Chara,
    nth_error (decodeCharas clock random_seed (encodeCharas cs)) i = Some d
    /\ map level (skill_array d)
       = map (fun s => if level s >? 1 then 2 else 1) (firstn 63 (skill_array c))
    /\ (forall k s,
          nth_error (skill_array c) k = Some s ->
          (k < 63)%nat ->
          exists t,
            nth_error (skill_array d) k = Some t
            /\ (1 < level s -> level t = 2)
            /\ (level s <= 1 -> level t = 1)).
Proof.
  intros Hc Hi. eexists. split; [apply roundtrip_nth; eassumption |].
  cbn [wire_image skill_array]. split.
  - rewrite map_map. reflexivity.
  - intros k s Hs Hk. exists (skill_image s). split.
    + apply map_nth_error. rewrite nth_error_firstn.
      destruct (Nat.ltb_spec k 63); [exact Hs | lia].
    + unfold skill_image. simpl.
      destruct (Z.gtb_spec (level s) 1); split; intros; lia.
Qed.

(** C9.  When [decodeChara] returns none, fewer than 108 bits remain and none
    is consumed: the vector, its cursor and its remaining count are unchanged;
    so every later call on it returns none as well, and the loop of
    [decodeCharas] appends nothing from there on. *)
Theorem decodeChara_none_consumes_nothing (now : string) (seed : Z) (bv : BitVector) :
  fst (decodeChara now seed bv) = (None : option Chara) ->
  remaining bv < 108
  /\ snd (decodeChara (SupportCard := SupportCard) now seed bv) = bv
  /\ readPos (snd (decodeChara (SupportCard := SupportCard) now seed bv)) = readPos bv
  /\ remaining (snd (decodeChara (SupportCard := SupportCard) now seed bv)) = remaining bv
  /\ (forall now' seed',
        decodeChara now' seed' bv = ((None : option Chara), bv))
  /\ (forall n i (charas : list Chara),
        decodeCharas_loop clock random_seed n i charas bv = (charas, bv)).
Proof.
  intros Hnone. apply decodeChara_none_inv in Hnone.
  rewrite (decodeChara_none now seed bv Hnone). cbn [snd].
  repeat split; try assumption.
  - intros now' seed'. apply decodeChara_none, Hnone.
  - intros n i charas. apply decodeCharas_loop_none, Hnone.
Qed.

(** C10.  For every text, each record [decodeCharas] returns is complete and
    in range (talent level and aptitudes in 1..8, stats in 0..2047, skill
    levels 1 or 2, at most 15 factors, 63 skills and 3 parents, each parent's
    position its 1-based index, rarity 3, no support card), and at most 255
    records are returned. *)
Theorem decodeCharas_in_range (encoded : string) :
  let decoded : list Chara := decodeCharas clock random_seed encoded in
  Forall chara_in_range decoded /\ (length decoded <= 255)%nat.
Proof.
  unfold decodeCharas. cbv zeta.
  match goal with
  | |- Forall _ (fst (?m ?bv)) /\ _ =>
      assert (H : Keeps m (fun charas : list Chara =>
                             Forall chara_in_range charas
                             /\ (length charas <= 255)%nat))
  end.
  { keep_read 8%nat. keep_read 8%nat.
    eapply Keeps_weaken; [| apply decodeCharas_loop_keeps; constructor].
    intros charas [Hall Hlen]. split; [exact Hall | cbn [length] in Hlen; lia]. }
  apply H. unfold fromBase64. cbn [bits].
  apply fromBase64_loop_is_bit. constructor.
Qed.

End Collection.

End Properties.

(** * The claims at sample inputs *)

Lemma decodeCharas_encodeCharas_roundtrip_witness :
  length (decodeCharas (SupportCard := unit) sample_clock sample_seed
            (encodeCharas [sample_chara; blank_chara])) = 2%nat
  /\ Forall2 chara_preserved [sample_chara; blank_chara]
       (decodeCharas (SupportCard := unit) sample_clock sample_seed
          (encodeCharas [sample_chara; blank_chara])).
Proof.
  destruct (decodeCharas_encodeCharas_roundtrip sample_clock sample_seed
              [sample_chara; blank_chara]) as [Hlen [_ Hall]].
  - vm_compute. reflexivity.
  - split; [exact Hlen | apply Hall; simpl; lia].
Defined.

Lemma decodeCharas_stops_at_none_witness :
  decodeCharas (SupportCard := unit) sample_clock sample_seed truncated_text
  = fst (decodeCharas_loop sample_clock sample_seed 1 0 []
           (snd (read_header truncated_text))).
Proof.
  destruct (decodeCharas_stops_at_none (SupportCard := unit)
              sample_clock sample_seed truncated_text 1) as [H _].
  - vm_compute. lia.
  - vm_compute. reflexivity.
  - exact H.
Defined.

(** The claim C3 as stated fails: the record with no factor, no skill and no
    parent occupies 120 bits, not 108. *)
Lemma encodeChara_blank_is_not_108_bits :
  length (bits (encodeChara new_BitVector blank_chara))
  <> (length (bits new_BitVector) + 108)%nat.
Proof. vm_compute. discriminate. Qed.

Lemma encodeChara_minimum_size_witness :
  length (bits (encodeChara new_BitVector blank_chara))
  = (length (bits new_BitVector) + 120)%nat.
Proof.
  exact (proj1 (encodeChara_minimum_size new_BitVector blank_chara
                  eq_refl eq_refl eq_refl)).
Defined.

Lemma encodeChara_clamps_stats_witness :
  exists d : CharaData unit,
    nth_error (decodeCharas (SupportCard := unit) sample_clock sample_seed
                 (encodeCharas [blank_chara; overflow_chara])) 1 = Some d
    /\ stats d = map (fun s => low 11 (Z.min s 2047)) (stats overflow_chara)
    /\ Forall2 (fun s t => 2047 < s -> t = 2047) (stats overflow_chara) (stats d).
Proof.
  apply (encodeChara_clamps_stats sample_clock sample_seed
           [blank_chara; overflow_chara] 1 overflow_chara);
    [reflexivity | lia].
Defined.

Lemma encodeChara_truncates_factors_witness :
  exists d : CharaData unit,
    nth_error (decodeCharas (SupportCard := unit) sample_clock sample_seed
                 (encodeCharas [overflow_chara])) 0 = Some d
    /\ factor_id_array d = firstn 15 (factor_id_array overflow_chara)
    /\ ((15 < length (factor_id_array overflow_chara))%nat ->
        length (factor_id_array d) = 15%nat).
Proof.
  apply (encodeChara_truncates_factors sample_clock sample_seed
           [overflow_chara] 0 overflow_chara);
    [reflexivity | lia | vm_compute; reflexivity].
Defined.

Lemma skill_levels_collapse_witness :
  exists d : CharaData unit,
    nth_error (decodeCharas (SupportCard := unit) sample_clock sample_seed
                 (encodeCharas [overflow_chara])) 0 = Some d
    /\ map level (skill_array d) = [2; 1; 1].
Proof.
  destruct (skill_levels_collapse sample_clock sample_seed
              [overflow_chara] 0 overflow_chara) as [d [Hd [Hlevels _]]];
    [reflexivity | lia |].
  exists d. split; [exact Hd | exact Hlevels].
Defined.


Lemma decodeCharas_never_raises_witness :
  decodeCharas (SupportCard := unit) sample_clock sample_seed EmptyString = []
  /\ decodeCharas (SupportCard := unit) sample_clock sample_seed "?! #" = []
  /\ decodeCharas (SupportCard := unit) sample_clock sample_seed "A_" = [].
Proof.
  split; [| split].
  - exact (proj1 (proj2 (decodeCharas_never_raises (SupportCard := unit)
                           sample_clock sample_seed EmptyString)) eq_refl).
  - exact (proj1 (proj2 (proj2 (decodeCharas_never_raises (SupportCard := unit)
                                  sample_clock sample_seed "?! #"))) eq_refl).
  - refine (proj2 (proj2 (proj2 (decodeCharas_never_raises (SupportCard := unit)
                                   sample_clock sample_seed "A_"))) _).
    vm_compute. lia.
Defined.

Lemma toBase64_fromBase64_witness :
  toBase64 (fromBase64 "AgIAABAAAAAAAAAAAAAAA-_z") = "AgIAABAAAAAAAAAAAAAAA-_z"%string.
Proof.
  apply toBase64_fromBase64; vm_compute; reflexivity.
Defined.

Lemma decodeChara_none_consumes_nothing_witness :
  remaining (fromBase64 "AgI") < 108
  /\ snd (decodeChara (SupportCard := unit) (sample_clock 0) (sample_seed 0)
            (fromBase64 "AgI"))
     = fromBase64 "AgI".
Proof.
  destruct (decodeChara_none_consumes_nothing (SupportCard := unit)
              sample_clock sample_seed (sample_clock 0) (sample_seed 0)
              (fromBase64 "AgI")) as [Hrem [Hsame _]].
  - vm_compute. reflexivity.
  - split; [exact Hrem | exact Hsame].
Defined.

(** ** The model at the inputs the specification names *)

Example encodeCharas_blank :
  encodeCharas [blank_chara] = "AgEAABAAAAAAAAAAAAAAAAA"%string.
Proof. vm_compute. reflexivity. Qed.

Example decodeCharas_truncated_text :
  decodeCharas (SupportCard := unit) sample_clock sample_seed truncated_text
  = [wire_image (sample_clock 0) (sample_seed 0) blank_chara].
Proof. vm_compute. reflexivity. Qed.

Example stat_5000_decodes_as_2047 :
  map speed (decodeCharas (SupportCard := unit) sample_clock sample_seed
               (encodeCharas [overflow_chara])) = [2047].
Proof. vm_compute. reflexivity. Qed.

Example twenty_factors_decode_as_fifteen :
  map factor_id_array
    (decodeCharas (SupportCard := unit) sample_clock sample_seed
       (encodeCharas [overflow_chara]))
  = [[1; 2; 3; 4; 5; 6; 7; 8; 9; 10; 11; 12; 13; 14; 15]].
Proof. vm_compute. reflexivity. Qed.

Example skill_level_5_decodes_as_2 :
  map skill_array
    (decodeCharas (SupportCard := unit) sample_clock sample_seed
       (encodeCharas [overflow_chara]))
  = [[mkSkillData 300 2; mkSkillData 301 1; mkSkillData 302 1]].
Proof. vm_compute. reflexivity. Qed.

Example characters_outside_the_alphabet_are_skipped :
  fromBase64 "A?g I" = fromBase64 "AgI".
Proof. vm_compute. reflexivity. Qed.

(** * Further properties of the bit vector *)

Lemma js_and_one_is_bit (x : Z) : is_bit (js_and x 1).
Proof.
  unfold js_and. replace (toInt32 1) with (Z.ones 1) by reflexivity.
  rewrite Z.land_ones by lia. change (2 ^ 1) with 2.
  pose proof (Z.mod_pos_bound (toInt32 x) 2 ltac:(lia)) as H.
  unfold is_bit. lia.
Qed.

Lemma write_loop_appends (n : nat) :
  forall v bs,
    exists l,
      write_loop v n bs = bs ++ l /\ length l = n /\ Forall is_bit l.
Proof.
  induction n as [| k IH]; intros v bs; cbn [write_loop].
  - exists []. rewrite app_nil_r. repeat split. constructor.
  - destruct (IH v (bs ++ [js_and (js_shr v (Z.of_nat k)) 1])) as [l [Hl [Hlen Hbits]]].
    exists (js_and (js_shr v (Z.of_nat k)) 1 :: l).
    rewrite Hl, <- app_assoc. cbn [app length]. repeat split.
    + congruence.
    + constructor; [apply js_and_one_is_bit | exact Hbits].
Qed.

(** X1.  [write] only appends: whatever the value and the width, the vector
    grows by exactly [bitLength] elements, each 0 or 1, the earlier bits and
    the cursor stay as they were; for a width of at most 32 the appended bits
    are the low bits of the value, most significant first. *)
Theorem write_appends (bv : BitVector) (value : Z) (bitLength : nat) :
  readPos (write bv value bitLength) = readPos bv
  /\ firstn (length (bits bv)) (bits (write bv value bitLength)) = bits bv
  /\ length (bits (write bv value bitLength)) = (length (bits bv) + bitLength)%nat
  /\ remaining (write bv value bitLength) = remaining bv + Z.of_nat bitLength
  /\ (Forall is_bit (bits bv) -> Forall is_bit (bits (write bv value bitLength)))
  /\ ((bitLength <= 32)%nat ->
      bits (write bv value bitLength) = bits bv ++ write_bits value bitLength).
Proof.
  destruct (write_loop_appends bitLength value (bits bv)) as [l [Hl [Hlen Hbits]]].
  unfold remaining, write. cbn [bits readPos]. rewrite Hl.
  split; [reflexivity |]. split.
  { rewrite firstn_app, firstn_all, Nat.sub_diag. cbn [firstn].
    apply app_nil_r. }
  split; [rewrite length_app; congruence |].
  split; [rewrite length_app; lia |].
  split.
  - intros H. apply Forall_is_bit_app; assumption.
  - intros Hn. rewrite <- Hl. apply write_loop_bits, Hn.
Qed.

(** X2.  What was written is read back: with the cursor at the end of the
    vector, writing [value] on [n <= 31] bits and reading [n] bits returns
    [value] modulo [2 ^ n] (so a value that fits comes back unchanged, and
    one that does not is cut to its low bits) and leaves the cursor at the
    new end. *)
Theorem write_then_read (bv : BitVector) (value : Z) (n : nat) :
  (n <= 31)%nat ->
  readPos bv = length (bits bv) ->
  fst (read n (write bv value n)) = value mod 2 ^ Z.of_nat n
  /\ (0 <= value < 2 ^ Z.of_nat n -> fst (read n (write bv value n)) = value)
  /\ remaining (snd (read n (write bv value n))) = 0.
Proof.
  intros Hn Hpos.
  assert (Hw : write bv value n
               = mkBitVector (bits bv ++ write_bits value n) (readPos bv))
    by (apply write_bits_of; lia).
  assert (Hr : read n (write bv value n)
               = (low n value, advance (length (write_bits value n)) (write bv value n))).
  { apply (Reads_read n value Hn (write bv value n) []).
    rewrite Hw. cbn [bits readPos]. rewrite Hpos, app_nil_r.
    rewrite skipn_app, skipn_all, Nat.sub_diag. reflexivity. }
  rewrite Hr. cbn [fst snd]. split; [reflexivity |]. split.
  - intros Hv. apply low_small, Hv.
  - rewrite Hw. unfold remaining, advance. cbn [bits readPos].
    rewrite length_app, write_bits_length. lia.
Qed.

Lemma read_loop_past_end (n : nat) :
  forall bv,
    (length (bits bv) <= readPos bv)%nat ->
    fst (read_loop n 0 bv) = 0.
Proof.
  induction n as [| k IH]; intros bv Hend; cbn [read_loop].
  - reflexivity.
  - rewrite nth_overflow by exact Hend.
    replace (js_or (js_shl 0 1) 0) with 0 by reflexivity.
    apply IH. cbn [bits readPos]. lia.
Qed.

(** X3.  [read] never changes the bits and never fails: it moves the cursor
    exactly [n] bits on, even past the end of the vector (the remaining count
    then goes negative), and a read that starts at or past the end returns
    0. *)
Theorem read_moves_cursor (n : nat) (bv : BitVector) :
  bits (snd (read n bv)) = bits bv
  /\ readPos (snd (read n bv)) = (readPos bv + n)%nat
  /\ remaining (snd (read n bv)) = remaining bv - Z.of_nat n
  /\ (remaining bv <= 0 -> fst (read n bv) = 0).
Proof.
  rewrite read_advances. unfold remaining, advance. cbn [bits readPos].
  repeat split; try lia.
  intros Hend. apply read_loop_past_end. lia.
Qed.

Lemma read_loop_split (n m : nat) :
  forall acc bv,
    read_loop (n + m) acc bv
    = read_loop m (fst (read_loop n acc bv)) (snd (read_loop n acc bv)).
Proof.
  induction n as [| k IH]; intros acc bv; cbn [Nat.add read_loop].
  - reflexivity.
  - apply IH.
Qed.

Lemma read_loop_shift (m : nat) :
  forall acc k bv,
    Forall is_bit (bits bv) ->
    0 <= acc < 2 ^ Z.of_nat k ->
    (k + m <= 31)%nat ->
    fst (read_loop m acc bv) = acc * 2 ^ Z.of_nat m + fst (read_loop m 0 bv)
    /\ snd (read_loop m acc bv) = snd (read_loop m 0 bv).
Proof.
  induction m as [| j IH]; intros acc k bv Hbits Hacc Hk.
  - cbn [read_loop fst snd]. change (2 ^ Z.of_nat 0) with 1. split; [lia | reflexivity].
  - cbn [read_loop].
    assert (Hb : is_bit (nth (readPos bv) (bits bv) 0)) by (apply nth_is_bit, Hbits).
    assert (Hk30 : 2 ^ Z.of_nat k <= 2 ^ Z.of_nat 30) by (apply pow2_le; lia).
    change (2 ^ Z.of_nat 30) with (2 ^ 30) in Hk30.
    rewrite !js_append_bit by (try assumption; lia).
    set (b := nth (readPos bv) (bits bv) 0) in *.
    set (bv' := mkBitVector (bits bv) (S (readPos bv))).
    destruct (IH (2 * acc + b) (S k) bv') as [Hv Hs];
      [exact Hbits | rewrite pow2_succ; destruct Hb as [-> | ->]; lia | lia |].
    destruct (IH (2 * 0 + b) 1%nat bv') as [Hv0 Hs0];
      [exact Hbits | change (2 ^ Z.of_nat 1) with 2; destruct Hb as [-> | ->]; lia | lia |].
    rewrite Hv, Hv0, Hs, Hs0, pow2_succ. split; [lia | reflexivity].
Qed.

(** X4.  On a vector of bits, a read of [n <= 31] bits is a number below
    [2 ^ n]; and reading [n + m <= 31] bits at once is reading [n] bits as
    the high part and then [m] bits as the low part. *)
Theorem read_value (n m : nat) (bv : BitVector) :
  Forall is_bit (bits bv) ->
  (n + m <= 31)%nat ->
  0 <= fst (read n bv) < 2 ^ Z.of_nat n
  /\ fst (read (n + m) bv)
     = fst (read n bv) * 2 ^ Z.of_nat m + fst (read m (snd (read n bv)))
  /\ snd (read (n + m) bv) = snd (read m (snd (read n bv))).
Proof.
  intros Hbits Hnm.
  destruct (Keeps_read n ltac:(lia) bv Hbits) as [Hsame Hrange].
  split; [exact Hrange |].
  unfold read in *. rewrite read_loop_split.
  apply (read_loop_shift m _ n).
  - rewrite Hsame. exact Hbits.
  - exact Hrange.
  - exact Hnm.
Qed.

(** ** Signed reads *)

Lemma js_shl_one (k : nat) : (k <= 30)%nat -> js_shl 1 (Z.of_nat k) = 2 ^ Z.of_nat k.
Proof.
  intros Hk. unfold js_shl.
  replace (toInt32 1) with 1 by reflexivity.
  rewrite Z.mod_small by lia.
  rewrite Z.shiftl_mul_pow2, Z.mul_1_l by lia.
  pose proof (pow2_le k 30 Hk) as Hle. pose proof (pow2_pos k) as Hpos.
  change (2 ^ Z.of_nat 30) with (2 ^ 30) in Hle.
  apply toInt32_small. lia.
Qed.

Lemma land_pow2 (a : Z) (k : nat) :
  Z.land a (2 ^ Z.of_nat k) = if Z.testbit a (Z.of_nat k) then 2 ^ Z.of_nat k else 0.
Proof.
  apply Z.bits_inj'. intros i Hi.
  rewrite Z.land_spec, Z.pow2_bits_eqb by lia.
  destruct (Z.eqb_spec (Z.of_nat k) i) as [<- | Hne].
  - destruct (Z.testbit a (Z.of_nat k)); cbn [andb].
    + rewrite Z.pow2_bits_true by lia. reflexivity.
    + rewrite Z.bits_0. reflexivity.
  - rewrite andb_false_r.
    destruct (Z.testbit a (Z.of_nat k)).
    + rewrite Z.pow2_bits_false by lia. reflexivity.
    + rewrite Z.bits_0. reflexivity.
Qed.

Lemma testbit_top (a : Z) (k : nat) :
  0 <= a < 2 ^ Z.of_nat (S k) ->
  Z.testbit a (Z.of_nat k) = (2 ^ Z.of_nat k <=? a).
Proof.
  intros Ha. rewrite pow2_succ in Ha. pose proof (pow2_pos k) as Hpos.
  pose proof (Z.testbit_spec' a (Z.of_nat k) ltac:(lia)) as Hspec.
  destruct (Z.leb_spec (2 ^ Z.of_nat k) a) as [Hle | Hlt].
  - replace (a / 2 ^ Z.of_nat k) with 1 in Hspec
      by (apply Z.div_unique with (r := a - 2 ^ Z.of_nat k); lia).
    destruct (Z.testbit a (Z.of_nat k)); [reflexivity | discriminate].
  - rewrite Z.div_small in Hspec by lia.
    destruct (Z.testbit a (Z.of_nat k)); [discriminate | reflexivity].
Qed.

(** The sign test and the correction of [readSigned], on an unsigned value
    of [S k <= 30] bits. *)
Lemma readSigned_correction (u : Z) (k : nat) :
  (S k <= 30)%nat ->
  0 <= u < 2 ^ Z.of_nat (S k) ->
  (if js_and u (js_shl 1 (Z.of_nat (S k) - 1)) =? 0 then u
   else u - js_shl 1 (Z.of_nat (S k)))
  = if u <? 2 ^ Z.of_nat k then u else u - 2 ^ Z.of_nat (S k).
Proof.
  intros Hk Hu.
  replace (Z.of_nat (S k) - 1) with (Z.of_nat k) by lia.
  rewrite !js_shl_one by lia.
  pose proof (pow2_le (S k) 30 Hk) as Hle. pose proof (pow2_pos k) as Hpos.
  change (2 ^ Z.of_nat 30) with (2 ^ 30) in Hle.
  assert (Hk2 : 2 ^ Z.of_nat (S k) = 2 * 2 ^ Z.of_nat k) by apply pow2_succ.
  unfold js_and. rewrite !toInt32_small by lia.
  rewrite land_pow2, testbit_top by exact Hu.
  destruct (Z.leb_spec (2 ^ Z.of_nat k) u) as [Hge | Hlt].
  - destruct (Z.eqb_spec (2 ^ Z.of_nat k) 0); [lia |].
    destruct (Z.ltb_spec u (2 ^ Z.of_nat k)); [lia | reflexivity].
  - cbn [Z.eqb]. destruct (Z.ltb_spec u (2 ^ Z.of_nat k)); [reflexivity | lia].
Qed.

(** X5.  [readSigned] undoes [write] on signed values: for a width [n] from 1
    to 30 and a value in [[-2 ^ (n-1), 2 ^ (n-1))], writing the value on [n]
    bits at the end of the vector and reading it back signed returns the
    value. *)
Theorem write_then_readSigned (bv : BitVector) (value : Z) (n : nat) :
  (1 <= n <= 30)%nat ->
  readPos bv = length (bits bv) ->
  - 2 ^ (Z.of_nat n - 1) <= value < 2 ^ (Z.of_nat n - 1) ->
  fst (readSigned n (write bv value n)) = value.
Proof.
  intros Hn Hpos Hv. destruct n as [| k]; [lia |].
  replace (Z.of_nat (S k) - 1) with (Z.of_nat k) in Hv by lia.
  assert (Hr : read (S k) (write bv value (S k))
               = (low (S k) value,
                  advance (length (write_bits value (S k))) (write bv value (S k)))).
  { apply (Reads_read (S k) value ltac:(lia) (write bv value (S k)) []).
    rewrite write_bits_of by lia. cbn [bits readPos].
    rewrite Hpos, app_nil_r, skipn_app, skipn_all, Nat.sub_diag. reflexivity. }
  unfold readSigned, bind. rewrite Hr.
  pose proof (pow2_pos k) as Hpos2.
  assert (Hk2 : 2 ^ Z.of_nat (S k) = 2 * 2 ^ Z.of_nat k) by apply pow2_succ.
  assert (Hlow : 0 <= low (S k) value < 2 ^ Z.of_nat (S k))
    by (unfold low; apply Z.mod_pos_bound; lia).
  pose proof (readSigned_correction (low (S k) value) k ltac:(lia) Hlow) as Hc.
  destruct (js_and (low (S k) value) (js_shl 1 (Z.of_nat (S k) - 1)) =? 0);
    cbn [ret fst]; rewrite Hc; unfold low in *.
  - destruct (Z.ltb_spec (value mod 2 ^ Z.of_nat (S k)) (2 ^ Z.of_nat k)) as [Hlt | Hge].
    + destruct (Z.neg_nonneg_cases value) as [Hneg | Hnn].
      * rewrite <- (Z.mod_add value 1) in Hlt by lia.
        rewrite Z.mod_small in Hlt by lia. lia.
      * apply Z.mod_small. lia.
    + destruct (Z.neg_nonneg_cases value) as [Hneg | Hnn].
      * rewrite <- (Z.mod_add value 1) by lia.
        rewrite Z.mod_small by lia. lia.
      * rewrite Z.mod_small in Hge by lia. lia.
  - destruct (Z.ltb_spec (value mod 2 ^ Z.of_nat (S k)) (2 ^ Z.of_nat k)) as [Hlt | Hge].
    + destruct (Z.neg_nonneg_cases value) as [Hneg | Hnn].
      * rewrite <- (Z.mod_add value 1) in Hlt by lia.
        rewrite Z.mod_small in Hlt by lia. lia.
      * apply Z.mod_small. lia.
    + destruct (Z.neg_nonneg_cases value) as [Hneg | Hnn].
      * rewrite <- (Z.mod_add value 1) by lia.
        rewrite Z.mod_small by lia. lia.
      * rewrite Z.mod_small in Hge by lia. lia.
Qed.

(** At a width of 31 the correction [1 << 31] is negative, and a negative
    value does not come back. *)
Example readSigned_31_does_not_round_trip :
  fst (readSigned 31 (write new_BitVector (-1) 31)) = 4294967295.
Proof. vm_compute. reflexivity. Qed.

(** ** Padding and text *)

(** X6.  [padToBase64] appends between 0 and 5 zero bits, just enough to make
    the length a multiple of 6; it keeps the earlier bits and the cursor, does
    nothing to a vector that is already aligned, and so is idempotent. *)
Theorem padToBase64_aligns (bv : BitVector) :
  bits (padToBase64 bv) = bits bv ++ repeat 0 (pad_count (length (bits bv)))
  /\ (pad_count (length (bits bv)) <= 5)%nat
  /\ (length (bits (padToBase64 bv)) mod 6 = 0)%nat
  /\ readPos (padToBase64 bv) = readPos bv
  /\ ((length (bits bv) mod 6 = 0)%nat -> padToBase64 bv = bv)
  /\ padToBase64 (padToBase64 bv) = padToBase64 bv.
Proof.
  destruct (padToBase64_exits (bits bv)) as [Hpad Hmod].
  assert (Haligned : forall bv', (length (bits bv') mod 6 = 0)%nat ->
                                 padToBase64 bv' = bv').
  { intros [bs p] H. unfold padToBase64. cbn [bits readPos] in *.
    destruct (padToBase64_exits bs) as [Hp _]. rewrite Hp.
    replace (pad_count (length bs)) with 0%nat by (unfold pad_count; lia_mod).
    cbn [repeat]. rewrite app_nil_r. reflexivity. }
  unfold padToBase64 in *. cbn [bits readPos] in *.
  split; [exact Hpad |].
  split; [unfold pad_count; lia_mod |].
  split; [exact Hmod |].
  split; [reflexivity |].
  split; [apply Haligned |].
  apply (Haligned (mkBitVector (padToBase64_loop 6 (bits bv)) (readPos bv))).
  exact Hmod.
Qed.

Lemma string_length_app (s1 s2 : string) :
  String.length (s1 ++ s2) = (String.length s1 + String.length s2)%nat.
Proof. induction s1 as [| c s1 IH]; simpl; [| rewrite IH]; reflexivity. Qed.

Lemma string_forallb_app (f : ascii -> bool) (s1 s2 : string) :
  string_forallb f (s1 ++ s2) = string_forallb f s1 && string_forallb f s2.
Proof.
  induction s1 as [| c s1 IH]; simpl; [reflexivity |].
  rewrite IH, andb_assoc. reflexivity.
Qed.

(** The character of a six-bit group is one character of the alphabet. *)
Lemma sextet_char_alphabet (g : list Z) :
  length g = 6%nat -> Forall is_bit g ->
  String.length (char_at BASE64_CHARS (bits_value 0 g)) = 1%nat
  /\ string_forallb in_alphabet (char_at BASE64_CHARS (bits_value 0 g)) = true.
Proof.
  intros Hlen Hg.
  do 7 (destruct g as [| ? g]; try discriminate).
  repeat match goal with
         | H : Forall is_bit (_ :: _) |- _ =>
             let Hb := fresh "Hb" in
             inversion H as [| ? ? Hb ?]; clear H; subst;
             destruct Hb; subst
         end;
    vm_compute; split; reflexivity.
Qed.

Lemma toBase64_loop_shape (m : nat) :
  forall fuel i bs result rest,
    skipn i bs = rest ->
    length rest = (6 * m)%nat ->
    Forall is_bit rest ->
    (m <= fuel)%nat ->
    String.length (toBase64_loop fuel i bs result) = (String.length result + m)%nat
    /\ string_forallb in_alphabet (toBase64_loop fuel i bs result)
       = string_forallb in_alphabet result.
Proof.
  induction m as [| m IH]; intros fuel i bs result rest Hs Hlen Hbits Hfuel.
  - destruct rest; [| discriminate].
    pose proof (skipn_nil_length bs i Hs) as Hi.
    rewrite Nat.add_0_r.
    destruct fuel; cbn [toBase64_loop]; [split; reflexivity |].
    destruct (Nat.ltb_spec i (length bs)); [lia | split; reflexivity].
  - destruct fuel as [| fuel]; [lia |].
    rewrite <- (firstn_skipn 6 rest) in Hs, Hbits.
    apply Forall_app in Hbits. destruct Hbits as [Hg Hrest].
    assert (Hglen : length (firstn 6 rest) = 6%nat)
      by (apply firstn_length_le; lia).
    cbn [toBase64_loop].
    destruct (Nat.ltb_spec i (length bs)) as [_ | Hi].
    + cbv zeta.
      rewrite (sextet_suffix _ _ bs i Hs Hglen Hg).
      destruct (sextet_char_alphabet _ Hglen Hg) as [Hone Hin].
      destruct (IH fuel (i + 6)%nat bs
                  (result ++ char_at BASE64_CHARS (bits_value 0 (firstn 6 rest)))%string
                  (skipn 6 rest)) as [Hl Ha].
      * rewrite <- Hglen at 1. apply skipn_past. exact Hs.
      * rewrite length_skipn. lia.
      * exact Hrest.
      * lia.
      * rewrite Hl, Ha, string_length_app, string_forallb_app, Hone, Hin, andb_true_r.
        split; [lia | reflexivity].
    + destruct (firstn 6 rest); [discriminate |].
      simpl in Hs. apply skipn_cons_length in Hs. lia.
Qed.

(** X7.  The text of a vector of bits has one character per started group of
    six bits, and every character is one of the 64 of the alphabet. *)
Theorem toBase64_text (bv : BitVector) :
  Forall is_bit (bits bv) ->
  String.length (toBase64 bv) = ((length (bits bv) + 5) / 6)%nat
  /\ string_forallb in_alphabet (toBase64 bv) = true.
Proof.
  intros Hbits. unfold toBase64, padToBase64. cbn [bits].
  destruct (padToBase64_exits (bits bv)) as [Hpad Hmod].
  set (bs := padToBase64_loop 6 (bits bv)) in *.
  destruct (toBase64_loop_shape (length bs / 6) (length bs) 0 bs EmptyString bs)
    as [Hl Ha].
  - reflexivity.
  - lia_mod.
  - rewrite Hpad. apply Forall_is_bit_app; [exact Hbits | apply repeat_zero_is_bit].
  - lia_mod.
  - rewrite Hl, Ha. split; [| reflexivity].
    cbn [String.length]. rewrite Hpad, length_app, repeat_length.
    unfold pad_count. lia_mod.
Qed.

(** X8.  Decoding the text of a vector of bits gives back the vector with its
    padding, the cursor at the start: the bits written are a prefix of the
    bits read, followed by at most five zeros. *)
Theorem fromBase64_of_toBase64 (bv : BitVector) :
  Forall is_bit (bits bv) ->
  fromBase64 (toBase64 bv) = mkBitVector (bits (padToBase64 bv)) 0
  /\ firstn (length (bits bv)) (bits (fromBase64 (toBase64 bv))) = bits bv
  /\ (length (bits (fromBase64 (toBase64 bv))) < length (bits bv) + 6)%nat.
Proof.
  intros Hbits. rewrite fromBase64_toBase64 by exact Hbits.
  destruct (padToBase64_exits (bits bv)) as [Hpad _].
  unfold padToBase64. cbn [bits]. rewrite Hpad.
  split; [reflexivity |]. split.
  - rewrite firstn_app, firstn_all, Nat.sub_diag. cbn [firstn]. apply app_nil_r.
  - rewrite length_app, repeat_length. unfold pad_count. lia_mod.
Qed.

Lemma string_filter_alphabet (s : string) :
  string_forallb in_alphabet (string_filter in_alphabet s) = true.
Proof.
  induction s as [| c s IH]; simpl; [reflexivity |].
  destruct (in_alphabet c) eqn:Hc; simpl; [rewrite Hc |]; exact IH.
Qed.

Lemma fromBase64_loop_filter (s : string) :
  forall bs,
    fromBase64_loop s bs = fromBase64_loop (string_filter in_alphabet s) bs.
Proof.
  induction s as [| c s IH]; intros bs; cbn [fromBase64_loop string_filter].
  - reflexivity.
  - unfold in_alphabet at 1.
    destruct (indexOf BASE64_CHARS c =? -1) eqn:Hc; cbn [negb].
    + apply IH.
    + cbn [fromBase64_loop]. cbv zeta. rewrite Hc. apply IH.
Qed.

(** X9.  [fromBase64] reads a text as if the characters outside the alphabet
    were not there: it yields six bits, each 0 or 1, per character of the
    alphabet, with the cursor at the start; the bits of a concatenation are
    the bits of its parts; and [toBase64] gives back the text without its
    foreign characters. *)
Theorem fromBase64_skips_foreign (s1 s2 : string) :
  fromBase64 s1 = fromBase64 (string_filter in_alphabet s1)
  /\ length (bits (fromBase64 s1))
     = (6 * String.length (string_filter in_alphabet s1))%nat
  /\ Forall is_bit (bits (fromBase64 s1))
  /\ readPos (fromBase64 s1) = 0%nat
  /\ bits (fromBase64 (s1 ++ s2)) = bits (fromBase64 s1) ++ bits (fromBase64 s2)
  /\ toBase64 (fromBase64 s1) = string_filter in_alphabet s1.
Proof.
  assert (Hf : fromBase64 s1 = fromBase64 (string_filter in_alphabet s1))
    by (unfold fromBase64; rewrite <- fromBase64_loop_filter; reflexivity).
  split; [exact Hf |]. split.
  { rewrite Hf. unfold fromBase64. cbn [bits].
    apply fromBase64_loop_length, string_filter_alphabet. }
  split; [apply fromBase64_loop_is_bit; constructor |].
  split; [reflexivity |]. split.
  - unfold fromBase64. cbn [bits].
    rewrite fromBase64_loop_append, fromBase64_loop_app. reflexivity.
  - rewrite Hf. apply toBase64_fromBase64_alphabet, string_filter_alphabet.
Qed.

(** * Further properties of the record codec *)

Lemma list_sum_cons (x : nat) (l : list nat) :
  list_sum (x :: l) = (x + list_sum l)%nat.
Proof. reflexivity. Qed.

Lemma ids_bits_length (ids : list Z) :
  length (flat_map (fun id => write_bits id 24) ids) = (24 * length ids)%nat.
Proof.
  induction ids as [| id ids IH]; cbn [flat_map length]; [reflexivity |].
  rewrite length_app, write_bits_length, IH. lia.
Qed.

Lemma skills_bits_length (skills : list SkillData) :
  length (flat_map skill_bits skills) = (17 * length skills)%nat.
Proof.
  induction skills as [| s skills IH]; cbn [flat_map length]; [reflexivity |].
  unfold skill_bits at 1. rewrite !length_app, !write_bits_length, IH. lia.
Qed.

Lemma parents_bits_length (parents : list SuccessionCharaData) :
  length (flat_map parent_bits parents) = list_sum (map parent_size parents).
Proof.
  induction parents as [| p parents IH]; cbn [flat_map map]; [reflexivity |].
  rewrite list_sum_cons.
  rewrite length_app, IH. f_equal.
  unfold parent_bits, factor_list_bits, parent_size.
  rewrite !length_app, !write_bits_length, ids_bits_length, length_firstn. lia.
Qed.

Lemma parents_size_bound (parents : list SuccessionCharaData) :
  (27 * length parents <= list_sum (map parent_size parents)
   <= 387 * length parents)%nat.
Proof.
  induction parents as [| p parents IH]; cbn [map length]; [simpl; lia |].
  rewrite list_sum_cons.
  assert (Hp : (27 <= parent_size p <= 387)%nat) by (unfold parent_size; lia).
  lia.
Qed.

Lemma write_bits_low (n k : nat) (v : Z) :
  (k <= n)%nat -> write_bits (low n v) k = write_bits v k.
Proof.
  intros Hk. induction k as [| j IH]; cbn [write_bits]; [reflexivity |].
  rewrite IH by lia. unfold low.
  rewrite Z.mod_pow2_bits_low by lia. reflexivity.
Qed.

Lemma ids_bits_low (ids : list Z) :
  flat_map (fun id => write_bits id 24) (map (low 24) ids)
  = flat_map (fun id => write_bits id 24) ids.
Proof.
  induction ids as [| id ids IH]; cbn [map flat_map]; [reflexivity |].
  rewrite IH, write_bits_low by lia. reflexivity.
Qed.

Lemma factor_list_bits_image (ids : list Z) :
  factor_list_bits (factor_image ids) = factor_list_bits ids.
Proof.
  unfold factor_list_bits, factor_image.
  rewrite (firstn_all2 (n := 15) (map (low 24) (firstn 15 ids)))
    by (rewrite length_map; apply firstn_le_length).
  rewrite length_map, ids_bits_low. reflexivity.
Qed.

Lemma skills_bits_image (skills : list SkillData) :
  flat_map skill_bits (map skill_image skills) = flat_map skill_bits skills.
Proof.
  induction skills as [| s skills IH]; cbn [map flat_map]; [reflexivity |].
  rewrite IH. f_equal. unfold skill_bits, skill_image. cbn [skill_id level].
  rewrite write_bits_low by lia.
  destruct (level s >? 1); reflexivity.
Qed.

Lemma parents_image_length (parents : list SuccessionCharaData) :
  forall i, length (parents_image i parents) = length parents.
Proof.
  induction parents as [| p parents IH]; intros i; cbn [parents_image length];
    [| rewrite IH]; reflexivity.
Qed.

Lemma parents_bits_image (parents : list SuccessionCharaData) :
  forall i,
    flat_map parent_bits (parents_image i parents) = flat_map parent_bits parents.
Proof.
  induction parents as [| p parents IH]; intros i; cbn [parents_image flat_map];
    [reflexivity |].
  rewrite IH. f_equal. unfold parent_bits.
  cbn [parent_card_id parent_talent_level parent_factor_id_array].
  rewrite factor_list_bits_image, write_bits_low by lia.
  replace (low 3 (parent_talent_level p - 1) + 1 - 1)
    with (low 3 (parent_talent_level p - 1)) by lia.
  rewrite write_bits_low by lia. reflexivity.
Qed.

Lemma stat_bits_image (s : Z) :
  write_bits (Z.min (low 11 (Z.min s 2047)) 2047) 11
  = write_bits (Z.min s 2047) 11.
Proof.
  assert (H : 0 <= low 11 (Z.min s 2047) < 2048)
    by (unfold low; apply Z.mod_pos_bound; reflexivity).
  rewrite Z.min_l by lia. apply write_bits_low. lia.
Qed.

Lemma biased_bits_image (v : Z) :
  write_bits (low 3 (v - 1) + 1 - 1) 3 = write_bits (v - 1) 3.
Proof.
  replace (low 3 (v - 1) + 1 - 1) with (low 3 (v - 1)) by lia.
  apply write_bits_low. lia.
Qed.

Section MoreProperties.

Context {SupportCard : Type}.

#[local] Abbreviation Chara := (CharaData SupportCard).

Lemma chara_bits_size (c : Chara) : length (chara_bits c) = chara_size c.
Proof.
  rewrite chara_bits_length, ids_bits_length, skills_bits_length,
    parents_bits_length, !length_firstn.
  unfold chara_size. reflexivity.
Qed.

Lemma chara_size_bound (c : Chara) : (120 <= chara_size c <= 2712)%nat.
Proof.
  unfold chara_size.
  pose proof (parents_size_bound (firstn 3 (succession_chara_array c))) as Hp.
  pose proof (firstn_le_length 3 (succession_chara_array c)) as H3.
  lia.
Qed.

(** X10.  [encodeChara] appends [120 + 24 f + 17 s] bits plus [27 + 24 g] per
    parent, where [f], [s] and [g] are the numbers of factors (at most 15),
    skills (at most 63) and parent factors (at most 15) it keeps, for at most
    3 parents: between 120 and 2712 bits in all, each 0 or 1, after the bits
    that were there, and with the cursor untouched. *)
Theorem encodeChara_size (bv : BitVector) (c : Chara) :
  length (bits (encodeChara bv c)) = (length (bits bv) + chara_size c)%nat
  /\ (120 <= chara_size c <= 2712)%nat
  /\ firstn (length (bits bv)) (bits (encodeChara bv c)) = bits bv
  /\ readPos (encodeChara bv c) = readPos bv
  /\ (Forall is_bit (bits bv) -> Forall is_bit (bits (encodeChara bv c))).
Proof.
  rewrite encodeChara_bits. cbn [bits readPos].
  split; [rewrite length_app, chara_bits_size; reflexivity |].
  split; [apply chara_size_bound |].
  split.
  { rewrite firstn_app, firstn_all, Nat.sub_diag. cbn [firstn]. apply app_nil_r. }
  split; [reflexivity |].
  intros H. apply Forall_is_bit_app; [exact H | apply chara_bits_is_bit].
Qed.

(** The bits of the collection before the text is made. *)
Lemma encodeCharas_text (cs : list Chara) :
  encodeCharas cs
  = toBase64
      (mkBitVector
         (write_bits 2 8
          ++ write_bits (Z.min (Z.of_nat (length cs)) 255) 8
          ++ flat_map chara_bits (firstn 255 cs)) 0).
Proof.
  unfold encodeCharas. cbv zeta.
  rewrite encodeCharas_fold_bits. unfold ENCODING_VERSION, new_BitVector.
  unfold_writes. reflexivity.
Qed.

Lemma collection_bits_is_bit (cs : list Chara) (count : Z) :
  Forall is_bit (write_bits 2 8 ++ write_bits count 8 ++ flat_map chara_bits cs).
Proof. bits_of_writes. Qed.

Lemma collection_bits_length (cs : list Chara) :
  length (flat_map chara_bits cs) = list_sum (map chara_size cs).
Proof.
  induction cs as [| c cs IH]; cbn [flat_map map]; [reflexivity |].
  rewrite list_sum_cons.
  rewrite length_app, chara_bits_size, IH. reflexivity.
Qed.

Lemma collection_size_bound (cs : list Chara) :
  (120 * length cs <= list_sum (map chara_size cs) <= 2712 * length cs)%nat.
Proof.
  induction cs as [| c cs IH]; cbn [map length]; [simpl; lia |].
  rewrite list_sum_cons.
  pose proof (chara_size_bound c). lia.
Qed.

Lemma encodeCharas_length (cs : list Chara) :
  string_forallb in_alphabet (encodeCharas cs) = true
  /\ String.length (encodeCharas cs)
     = ((16 + list_sum (map chara_size (firstn 255 cs)) + 5) / 6)%nat.
Proof.
  destruct (toBase64_text
              (mkBitVector
                 (write_bits 2 8
                  ++ write_bits (Z.min (Z.of_nat (length cs)) 255) 8
                  ++ flat_map chara_bits (firstn 255 cs)) 0)) as [Hlen Halpha].
  { cbn [bits]. apply collection_bits_is_bit. }
  rewrite <- encodeCharas_text in Hlen, Halpha.
  cbn [bits] in Hlen.
  rewrite !length_app, !write_bits_length, collection_bits_length in Hlen.
  split; [exact Halpha |]. rewrite Hlen. reflexivity.
Qed.

(** X11.  The text [encodeCharas] returns is made of alphabet characters only
    and is never empty: with [n] the number of records kept (at most 255) it
    has one character per started group of six of the [16 + sizes] bits,
    between [20 n + 3] and [452 n + 3] characters, hence at most 115263; and
    the text conversion reproduces it exactly. *)
Theorem encodeCharas_text_shape (cs : list Chara) :
  let n := Nat.min (length cs) 255 in
  string_forallb in_alphabet (encodeCharas cs) = true
  /\ String.length (encodeCharas cs)
     = ((16 + list_sum (map chara_size (firstn 255 cs)) + 5) / 6)%nat
  /\ (20 * n + 3 <= String.length (encodeCharas cs) <= 452 * n + 3)%nat
  /\ Z.of_nat (String.length (encodeCharas cs)) <= 115263
  /\ toBase64 (fromBase64 (encodeCharas cs)) = encodeCharas cs.
Proof.
  intros n. destruct (encodeCharas_length cs) as [Halpha Hlen].
  pose proof (collection_size_bound (firstn 255 cs)) as Hb.
  rewrite length_firstn in Hb. fold n in Hb.
  assert (Hn : (n <= 255)%nat) by (unfold n; lia).
  split; [exact Halpha |].
  split; [exact Hlen |].
  assert (Hbound : (20 * n + 3 <= String.length (encodeCharas cs) <= 452 * n + 3)%nat)
    by (rewrite Hlen; lia_mod).
  split; [exact Hbound |].
  split; [lia |].
  apply toBase64_fromBase64_alphabet, Halpha.
Qed.

(** The bits of a record are those of its wire image. *)
Lemma chara_bits_wire_image (now : string) (seed : Z) (c : Chara) :
  chara_bits (wire_image now seed c) = chara_bits c.
Proof.
  unfold chara_bits, stats, aptitudes.
  cbn [wire_image card_id talent_level speed stamina power guts wiz
       proper_distance_short proper_distance_mile proper_distance_middle
       proper_distance_long proper_ground_turf proper_ground_dirt
       proper_running_style_nige proper_running_style_senko
       proper_running_style_sashi proper_running_style_oikomi
       factor_id_array skill_array succession_chara_array flat_map].
  rewrite !stat_bits_image, !biased_bits_image, factor_list_bits_image.
  rewrite write_bits_low by lia.
  rewrite (firstn_all2 (n := 63) (map skill_image (firstn 63 (skill_array c))))
    by (rewrite length_map; apply firstn_le_length).
  rewrite (firstn_all2 (n := 3) (parents_image 0 (firstn 3 (succession_chara_array c))))
    by (rewrite parents_image_length; apply firstn_le_length).
  rewrite length_map, parents_image_length, skills_bits_image, parents_bits_image.
  reflexivity.
Qed.

(** X15.  [estimateEncodedLength] is [50 n + 3] for [n] records, whatever
    they hold.  For at most 255 records it is an upper bound of the length of
    the text when the records take 300 bits each on average or less, and a
    lower bound when they take 300 or more. *)
Theorem estimateEncodedLength_value (cs : list Chara) :
  estimateEncodedLength cs = 50 * Z.of_nat (length cs) + 3
  /\ ((length cs <= 255)%nat ->
      (list_sum (map chara_size cs) <= 300 * length cs)%nat ->
      Z.of_nat (String.length (encodeCharas cs)) <= estimateEncodedLength cs)
  /\ ((length cs <= 255)%nat ->
      (300 * length cs <= list_sum (map chara_size cs))%nat ->
      estimateEncodedLength cs <= Z.of_nat (String.length (encodeCharas cs))).
Proof.
  assert (Hv : estimateEncodedLength cs = 50 * Z.of_nat (length cs) + 3).
  { unfold estimateEncodedLength, Math_ceil_div. cbv zeta.
    Z.to_euclidean_division_equations. lia. }
  destruct (encodeCharas_length cs) as [_ Hlen].
  split; [exact Hv |].
  split; intros H255 Hsize; rewrite Hv, Hlen, firstn_all2 by exact H255; lia_mod.
Qed.

End MoreProperties.

(** * Further properties of the collection codec *)

(** ** Readers only see the unread bits *)

Lemma Respects_ret {A : Type} (a : A) : Respects (ret a).
Proof. intros bv1 bv2 H. split; [reflexivity | exact H]. Qed.

Lemma Respects_bind {A B : Type} (m : M A) (k : A -> M B) :
  Respects m -> (forall a, Respects (k a)) -> Respects (bind m k).
Proof.
  intros Hm Hk bv1 bv2 H. unfold bind.
  destruct (Hm bv1 bv2 H) as [Ha Hs].
  destruct (m bv1) as [a1 bv1'], (m bv2) as [a2 bv2']. cbn [fst snd] in Ha, Hs.
  subst a2. apply Hk, Hs.
Qed.

Lemma skipn_step (bs : list Z) (p : nat) :
  skipn p bs = nth p bs 0 :: skipn (S p) bs \/ (skipn p bs = [] /\ nth p bs 0 = 0).
Proof.
  revert p. induction bs as [| b bs IH]; intros p.
  - right. destruct p; split; reflexivity.
  - destruct p as [| p]; [left; reflexivity |]. apply IH.
Qed.

Lemma skipn_nil_succ (bs : list Z) (p : nat) : skipn p bs = [] -> skipn (S p) bs = [].
Proof.
  intros H. apply skipn_nil_length in H. apply skipn_all2. lia.
Qed.

Lemma Agree_step (bv1 bv2 : BitVector) :
  Agree bv1 bv2 ->
  nth (readPos bv1) (bits bv1) 0 = nth (readPos bv2) (bits bv2) 0
  /\ Agree (mkBitVector (bits bv1) (S (readPos bv1)))
           (mkBitVector (bits bv2) (S (readPos bv2))).
Proof.
  unfold Agree. cbn [bits readPos]. intros H.
  destruct (skipn_step (bits bv1) (readPos bv1)) as [H1 | [H1 Hn1]],
           (skipn_step (bits bv2) (readPos bv2)) as [H2 | [H2 Hn2]].
  - rewrite H1, H2 in H. injection H as Hn Hs. split; [exact Hn | exact Hs].
  - rewrite H1, H2 in H. discriminate.
  - rewrite H1, H2 in H. discriminate.
  - split; [congruence |].
    rewrite (skipn_nil_succ _ _ H1), (skipn_nil_succ _ _ H2). reflexivity.
Qed.

Lemma Respects_read_loop (n : nat) :
  forall acc bv1 bv2,
    Agree bv1 bv2 ->
    fst (read_loop n acc bv1) = fst (read_loop n acc bv2)
    /\ Agree (snd (read_loop n acc bv1)) (snd (read_loop n acc bv2)).
Proof.
  induction n as [| k IH]; intros acc bv1 bv2 H; cbn [read_loop].
  - split; [reflexivity | exact H].
  - destruct (Agree_step bv1 bv2 H) as [Hn Hs]. rewrite Hn. apply IH, Hs.
Qed.

Lemma Respects_read (n : nat) : Respects (read n).
Proof. intros bv1 bv2 H. apply Respects_read_loop, H. Qed.

Lemma Respects_factor_ids (count : nat) :
  forall acc, Respects (read_factor_ids count acc).
Proof.
  induction count as [| k IH]; intros acc; cbn [read_factor_ids].
  - apply Respects_ret.
  - apply Respects_bind; [apply Respects_read | intros v; apply IH].
Qed.

Lemma Respects_skills (count : nat) :
  forall acc, Respects (read_skills count acc).
Proof.
  induction count as [| k IH]; intros acc; cbn [read_skills].
  - apply Respects_ret.
  - apply Respects_bind; [apply Respects_read | intros id].
    apply Respects_bind; [apply Respects_read | intros flag]. apply IH.
Qed.

Lemma Respects_parents (count : nat) :
  forall i acc, Respects (read_parents count i acc).
Proof.
  induction count as [| k IH]; intros i acc; cbn [read_parents].
  - apply Respects_ret.
  - apply Respects_bind; [apply Respects_read | intros id].
    apply Respects_bind; [apply Respects_read | intros t].
    apply Respects_bind; [apply Respects_read | intros n].
    apply Respects_bind; [apply Respects_factor_ids | intros ids]. apply IH.
Qed.

Lemma Agree_guard (bv1 bv2 : BitVector) :
  Agree bv1 bv2 -> (remaining bv1 <? 108) = (remaining bv2 <? 108).
Proof.
  unfold Agree, remaining. intros H.
  apply (f_equal (@length Z)) in H. rewrite !length_skipn in H.
  destruct (Z.ltb_spec (Z.of_nat (length (bits bv1)) - Z.of_nat (readPos bv1)) 108),
           (Z.ltb_spec (Z.of_nat (length (bits bv2)) - Z.of_nat (readPos bv2)) 108);
    try reflexivity; lia.
Qed.

(** ** Readers move the cursor forward *)

Lemma Consumes_ret {A : Type} (a : A) : Consumes (ret a) 0.
Proof. intros bv. cbn [ret fst snd]. split; [reflexivity | lia]. Qed.

Lemma Consumes_bind {A B : Type} (m : M A) (k : A -> M B) (d1 d2 : nat) :
  Consumes m d1 -> (forall a, Consumes (k a) d2) -> Consumes (bind m k) (d1 + d2).
Proof.
  intros Hm Hk bv. unfold bind.
  destruct (Hm bv) as [Hb1 Hp1]. destruct (m bv) as [a bv']. cbn [fst snd] in *.
  destruct (Hk a bv') as [Hb2 Hp2]. split; [congruence | lia].
Qed.

Lemma Consumes_less {A : Type} (m : M A) (d d' : nat) :
  Consumes m d -> (d' <= d)%nat -> Consumes m d'.
Proof. intros Hm Hd bv. destruct (Hm bv) as [Hb Hp]. split; [exact Hb | lia]. Qed.

Lemma Consumes_read (n : nat) : Consumes (read n) n.
Proof.
  intros bv. rewrite read_advances. unfold advance. cbn [bits readPos].
  split; [reflexivity | lia].
Qed.

Lemma Consumes_factor_ids (count : nat) :
  forall acc, Consumes (read_factor_ids count acc) 0.
Proof.
  induction count as [| k IH]; intros acc; cbn [read_factor_ids].
  - apply Consumes_ret.
  - eapply Consumes_less;
      [apply Consumes_bind; [apply Consumes_read | intros v; apply IH] | lia].
Qed.

Lemma Consumes_skills (count : nat) :
  forall acc, Consumes (read_skills count acc) 0.
Proof.
  induction count as [| k IH]; intros acc; cbn [read_skills].
  - apply Consumes_ret.
  - eapply Consumes_less;
      [apply Consumes_bind; [apply Consumes_read | intros id];
       apply Consumes_bind; [apply Consumes_read | intros flag]; apply IH | lia].
Qed.

Lemma Consumes_parents (count : nat) :
  forall i acc, Consumes (read_parents count i acc) 0.
Proof.
  induction count as [| k IH]; intros i acc; cbn [read_parents].
  - apply Consumes_ret.
  - eapply Consumes_less;
      [apply Consumes_bind; [apply Consumes_read | intros id];
       apply Consumes_bind; [apply Consumes_read | intros t];
       apply Consumes_bind; [apply Consumes_read | intros n];
       apply Consumes_bind; [apply Consumes_factor_ids | intros ids]; apply IH
      | lia].
Qed.

Lemma string_filter_length (f : ascii -> bool) (s : string) :
  (String.length (string_filter f s) <= String.length s)%nat.
Proof.
  induction s as [| c s IH]; cbn [string_filter String.length]; [lia |].
  destruct (f c); cbn [String.length]; lia.
Qed.

Section MoreCollection.

Context {SupportCard : Type}.

#[local] Abbreviation Chara := (CharaData SupportCard).

Lemma Respects_decodeChara_fields (now : string) (seed : Z) :
  Respects (decodeChara_fields (SupportCard := SupportCard) now seed).
Proof.
  unfold decodeChara_fields.
  repeat (apply Respects_bind;
          [ first [ apply Respects_read | apply Respects_factor_ids
                  | apply Respects_skills | apply Respects_parents ]
          | intros ? ]).
  apply Respects_ret.
Qed.

Lemma Respects_decodeChara (now : string) (seed : Z) :
  Respects (decodeChara (SupportCard := SupportCard) now seed).
Proof.
  intros bv1 bv2 H. unfold decodeChara. rewrite (Agree_guard bv1 bv2 H).
  destruct (remaining bv2 <? 108).
  - split; [reflexivity | exact H].
  - apply Respects_decodeChara_fields, H.
Qed.

Lemma Consumes_decodeChara_fields (now : string) (seed : Z) :
  Consumes (decodeChara_fields (SupportCard := SupportCard) now seed) 120.
Proof.
  unfold decodeChara_fields.
  eapply Consumes_less.
  - repeat (apply Consumes_bind;
            [ first [ apply Consumes_read | apply Consumes_factor_ids
                    | apply Consumes_skills | apply Consumes_parents ]
            | intros ? ]).
    apply Consumes_ret.
  - cbv. lia.
Qed.

Section WithClock.

Variable clock : nat -> string.
Variable random_seed : nat -> Z.

Lemma Respects_decodeCharas_loop (n : nat) :
  forall i (charas : list Chara),
    Respects (decodeCharas_loop clock random_seed n i charas).
Proof.
  induction n as [| k IH]; intros i charas; cbn [decodeCharas_loop].
  - apply Respects_ret.
  - apply Respects_bind; [apply Respects_decodeChara |].
    intros [c |]; apply IH.
Qed.

(** X12.  Whatever the field values, decoding an encoded collection yields
    the wire images of its first 255 records: every number comes back modulo
    the width of its field (a card id modulo [2 ^ 20], a skill id modulo
    [2 ^ 16], a talent level or aptitude as [((v - 1) mod 8) + 1]), stats
    clamped first, lists cut to 15, 63 and 3 entries, parents renumbered from
    1, with rarity 3, no support card, and the time stamp and seed of the
    moment of decoding. *)
Theorem decodeCharas_encodeCharas_wire_image (cs : list Chara) :
  decodeCharas clock random_seed (encodeCharas cs)
  = wire_images clock random_seed 0 (firstn 255 cs)
  /\ (forall i c,
        nth_error cs i = Some c -> (i < 255)%nat ->
        exists d : Chara,
          nth_error (decodeCharas clock random_seed (encodeCharas cs)) i = Some d
          /\ card_id d = card_id c mod 2 ^ 20
          /\ talent_level d = (talent_level c - 1) mod 8 + 1
          /\ map skill_id (skill_array d)
             = map (fun s => skill_id s mod 2 ^ 16) (firstn 63 (skill_array c))
          /\ map position_id (succession_chara_array d)
             = map (fun k => Z.of_nat k + 1)
                   (seq 0 (length (firstn 3 (succession_chara_array c))))
          /\ create_time d = clock i
          /\ chara_seed d = random_seed i
          /\ rarity d = 3
          /\ support_card_list d = []).
Proof.
  split; [apply decodeCharas_encodeCharas |].
  intros i c Hc Hi. eexists. split; [apply roundtrip_nth; eassumption |].
  cbn [wire_image card_id talent_level skill_array succession_chara_array
       create_time chara_seed rarity support_card_list].
  repeat split.
  - rewrite map_map. reflexivity.
  - generalize (firstn 3 (succession_chara_array c)). intros ps.
    change 0 with (Z.of_nat 0) at 1. generalize 0%nat.
    induction ps as [| p ps IH]; intros k; cbn [parents_image map length seq].
    + reflexivity.
    + f_equal. replace (Z.of_nat k + 1) with (Z.of_nat (S k)) by lia. apply IH.
Qed.

Lemma wire_images_bits (cs : list Chara) :
  forall i,
    flat_map chara_bits (wire_images clock random_seed i cs)
    = flat_map chara_bits cs.
Proof.
  induction cs as [| c cs IH]; intros i; cbn [wire_images flat_map].
  - reflexivity.
  - rewrite IH, chara_bits_wire_image. reflexivity.
Qed.

(** X13.  Encoding is a normal form: encoding what was decoded from an
    encoded collection gives the same text again, and records past the
    255th never matter. *)
Theorem encodeCharas_of_decoded (cs : list Chara) :
  encodeCharas (SupportCard := SupportCard)
    (decodeCharas clock random_seed (encodeCharas cs)) = encodeCharas cs
  /\ encodeCharas (firstn 255 cs) = encodeCharas cs.
Proof.
  rewrite decodeCharas_encodeCharas, !encodeCharas_text.
  pose proof (firstn_le_length 255 cs) as H255.
  rewrite wire_images_length, length_firstn.
  rewrite (firstn_all2 (n := 255) (wire_images clock random_seed 0 (firstn 255 cs)))
    by (rewrite wire_images_length; exact H255).
  rewrite (firstn_all2 (n := 255) (firstn 255 cs)) by exact H255.
  rewrite wire_images_bits.
  replace (Z.min (Z.of_nat (Nat.min 255 (length cs))) 255)
    with (Z.min (Z.of_nat (length cs)) 255) by lia.
  split; reflexivity.
Qed.

(** X14.  The version byte is not used: two texts whose bits agree from the
    ninth bit on decode to the same records, whatever their first eight
    bits. *)
Theorem decodeCharas_ignores_version (s1 s2 : string) :
  skipn 8 (bits (fromBase64 s1)) = skipn 8 (bits (fromBase64 s2)) ->
  decodeCharas (SupportCard := SupportCard) clock random_seed s1
  = decodeCharas clock random_seed s2.
Proof.
  intros H. unfold decodeCharas. cbv zeta. unfold bind at 1 3.
  pose proof (read_advances 8 (fromBase64 s1)) as H1.
  pose proof (read_advances 8 (fromBase64 s2)) as H2.
  destruct (read 8 (fromBase64 s1)) as [v1 bv1], (read 8 (fromBase64 s2)) as [v2 bv2].
  cbn [snd] in H1, H2. subst bv1 bv2.
  apply (Respects_bind (read 8)
           (fun count => decodeCharas_loop clock random_seed (Z.to_nat count) 0 [])).
  - apply Respects_read.
  - intros count. apply Respects_decodeCharas_loop.
  - unfold Agree, advance. cbn [bits readPos]. exact H.
Qed.

Lemma decodeCharas_loop_capacity (n : nat) :
  forall i (charas : list Chara) bv,
    bits (snd (decodeCharas_loop clock random_seed n i charas bv)) = bits bv
    /\ exists k,
         length (fst (decodeCharas_loop clock random_seed n i charas bv))
         = (length charas + k)%nat
         /\ (k <= n)%nat
         /\ (k = 0%nat
             \/ (readPos bv + 120 * (k - 1) + 108 <= length (bits bv))%nat).
Proof.
  induction n as [| j IH]; intros i charas bv; cbn [decodeCharas_loop].
  - cbn [ret fst snd]. split; [reflexivity |]. exists 0%nat. lia.
  - unfold bind, decodeChara.
    destruct (Z.ltb_spec (remaining bv) 108) as [Hlt | Hge].
    + destruct (IH (S i) charas bv) as [Hb [k [Hlen [Hk Hcap]]]].
      split; [exact Hb |]. exists k. repeat split; [exact Hlen | lia | exact Hcap].
    + pose proof (Consumes_decodeChara_fields (clock i) (random_seed i) bv) as [Hb1 Hp1].
      pose proof (decodeChara_fields_some (SupportCard := SupportCard)
                    (clock i) (random_seed i) bv) as Hsome.
      destruct (decodeChara_fields (clock i) (random_seed i) bv) as [[c |] bv1];
        cbn [fst snd] in Hb1, Hp1, Hsome; [| congruence].
      destruct (IH (S i) (charas ++ [c]) bv1) as [Hb [k [Hlen [Hk Hcap]]]].
      split; [congruence |]. exists (S k).
      rewrite Hlen, length_app. cbn [length].
      unfold remaining in Hge. rewrite Hb1 in Hcap.
      repeat split; lia.
Qed.

(** X16.  [decodeCharas] never returns more records than the header declares,
    nor more than the text can hold: each record needs 120 bits, the last one
    108, after the 16 bits of the header; so [k >= 1] records need a text of
    at least [20 k + 1] characters of the alphabet. *)
Theorem decodeCharas_capacity (encoded : string) :
  let k := length (decodeCharas (SupportCard := SupportCard)
                     clock random_seed encoded) in
  (k <= Z.to_nat (fst (read_header encoded)))%nat
  /\ (k = 0%nat
      \/ ((120 * k + 4 <= length (bits (fromBase64 encoded)))%nat
          /\ (20 * k + 1 <= String.length encoded)%nat)).
Proof.
  intros k. subst k. rewrite decodeCharas_header.
  destruct (decodeCharas_loop_capacity
              (Z.to_nat (fst (read_header encoded))) 0 [] (snd (read_header encoded)))
    as [_ [k [Hlen [Hk Hcap]]]].
  rewrite Hlen. cbn [length Nat.add].
  split; [exact Hk |].
  destruct Hcap as [-> | Hcap]; [left; reflexivity | right].
  rewrite read_header_vector in Hcap. unfold advance in Hcap.
  cbn [bits readPos] in Hcap.
  assert (Hbits : (length (bits (fromBase64 encoded)) <= 6 * String.length encoded)%nat).
  { unfold fromBase64. cbn [bits].
    rewrite fromBase64_loop_filter, fromBase64_loop_length
      by apply string_filter_alphabet.
    pose proof (string_filter_length in_alphabet encoded). lia. }
  change (readPos (fromBase64 encoded)) with 0%nat in Hcap.
  split; lia.
Qed.

(** X17.  A collection placed in the fragment of the address is found again:
    [getEncodedFromUrl] drops the first character of the hash and returns
    null only for a hash of at most one character, so for the hash made of
    one character and the text of [encodeCharas] (never empty) it returns that
    text, which decodes to the wire images of the records. *)
Theorem getEncodedFromUrl_of_encoded (cs : list Chara) (hash : string) (c : ascii) :
  (getEncodedFromUrl hash = None <-> (String.length hash <= 1)%nat)
  /\ (forall encoded, getEncodedFromUrl hash = Some encoded ->
                      exists c0, hash = String c0 encoded)
  /\ getEncodedFromUrl (String c (encodeCharas cs)) = Some (encodeCharas cs)
  /\ option_map (decodeCharas clock random_seed)
       (getEncodedFromUrl (String c (encodeCharas cs)))
     = Some (wire_images clock random_seed 0 (firstn 255 cs)).
Proof.
  assert (Hsome : getEncodedFromUrl (String c (encodeCharas cs))
                  = Some (encodeCharas cs)).
  { destruct (encodeCharas_length cs) as [_ Hlen].
    unfold getEncodedFromUrl. cbv zeta.
    destruct (encodeCharas cs) as [| c1 rest]; [| reflexivity].
    cbn [String.length] in Hlen. exfalso. lia_mod. }
  split; [| split; [| split]].
  - unfold getEncodedFromUrl. cbv zeta.
    destruct hash as [| c0 [| c1 rest]]; cbn [String.length];
      split; intros H; try reflexivity; try discriminate; lia.
  - intros encoded. unfold getEncodedFromUrl. cbv zeta.
    destruct hash as [| c0 [| c1 rest]]; intros H; try discriminate.
    injection H as <-. exists c0. reflexivity.
  - exact Hsome.
  - rewrite Hsome. cbn [option_map]. rewrite decodeCharas_encodeCharas. reflexivity.
Qed.

End WithClock.

End MoreCollection.

(** * The further properties at sample inputs *)

Lemma write_then_read_witness :
  fst (read 11 (write new_BitVector 5000 11)) = 5000 mod 2 ^ Z.of_nat 11.
Proof.
  refine (proj1 (write_then_read new_BitVector 5000 11 _ _));
    [lia | reflexivity].
Defined.

Lemma read_value_witness :
  fst (read (3 + 5) (fromBase64 "AgI"))
  = fst (read 3 (fromBase64 "AgI")) * 2 ^ Z.of_nat 5
    + fst (read 5 (snd (read 3 (fromBase64 "AgI")))).
Proof.
  refine (proj1 (proj2 (read_value 3 5 (fromBase64 "AgI") _ _))).
  - apply fromBase64_loop_is_bit. constructor.
  - lia.
Defined.

Lemma write_then_readSigned_witness :
  fst (readSigned 8 (write new_BitVector (-5) 8)) = -5.
Proof.
  apply (write_then_readSigned new_BitVector (-5) 8);
    [lia | reflexivity | simpl; lia].
Defined.

Lemma toBase64_text_witness :
  String.length (toBase64 (fromBase64 "AgI_"))
  = ((length (bits (fromBase64 "AgI_")) + 5) / 6)%nat
  /\ string_forallb in_alphabet (toBase64 (fromBase64 "AgI_")) = true.
Proof.
  apply (toBase64_text (fromBase64 "AgI_")).
  apply fromBase64_loop_is_bit. constructor.
Defined.

Lemma fromBase64_of_toBase64_witness :
  fromBase64 (toBase64 (write new_BitVector 5 8))
  = mkBitVector (bits (padToBase64 (write new_BitVector 5 8))) 0.
Proof.
  refine (proj1 (fromBase64_of_toBase64 (write new_BitVector 5 8) _)).
  rewrite write_bits_of by lia. apply Forall_is_bit_app;
    [constructor | apply write_bits_is_bit].
Defined.

Lemma decodeCharas_ignores_version_witness :
  decodeCharas (SupportCard := unit) sample_clock sample_seed
    "AgEAABAAAAAAAAAAAAAAAAA"
  = decodeCharas sample_clock sample_seed "_wEAABAAAAAAAAAAAAAAAAA".
Proof.
  apply decodeCharas_ignores_version. vm_compute. reflexivity.
Defined.

Example version_255_is_read :
  fst (read 8 (fromBase64 "_wEAABAAAAAAAAAAAAAAAAA")) = 255.
Proof. vm_compute. reflexivity. Qed.

Example estimateEncodedLength_empty :
  estimateEncodedLength (SupportCard := unit) [] = 3.
Proof. vm_compute. reflexivity. Qed.
